(** * MarkovText (apputil.py): transition table and text generation

    A shallow embedding of the class [MarkovText] of [apputil.py] and the
    verification of its specification.

    Conventions of the embedding:
    - a Python [str] is a [string]; each character is a code point in
      0..255;
    - a Python [int] is a [Z];
    - the Python values that flow through the class (tokens, context keys,
      seeds, the items of [generated_words]) are [value]s: a [str] or a
      tuple of values;
    - a [dict] is an association list in insertion order (Python dicts
      keep insertion order, and [generate] reads [list(term_dict.keys())]);
    - an exception is a [Raise] result; the instance is a record that every
      method takes and returns;
    - the module [random] is a tape of draws together with the number of
      draws consumed so far. *)

From Stdlib Require Import ZArith List Bool Arith Lia.
From Stdlib Require Import Strings.String Strings.Ascii.
From Stdlib Require Import Numbers.DecimalString.
Import ListNotations.

Set Warnings "-register-all".
Open Scope string_scope.
Open Scope list_scope.
Open Scope Z_scope.

(** ** Python values *)

Inductive value : Type :=
| VStr (s : string)
| VTuple (items : list value).

Fixpoint value_eqb (a b : value) {struct a} : bool :=
  match a, b with
  | VStr s, VStr t => String.eqb s t
  | VTuple xs, VTuple ys =>
      (fix all2 (xs ys : list value) {struct xs} : bool :=
         match xs, ys with
         | [], [] => true
         | x :: xs', y :: ys' => value_eqb x y && all2 xs' ys'
         | _, _ => false
         end) xs ys
  | _, _ => false
  end.

Definition isinstance_str (v : value) : bool :=
  match v with VStr _ => true | VTuple _ => false end.

(** ** Exceptions and results *)

Inductive exn : Type :=
| IndexError (msg : string)
| ValueError (msg : string)
| KeyError (msg : string)
| TypeError (msg : string).

Inductive result (A : Type) : Type :=
| Ok (a : A)
| Raise (e : exn).
Arguments Ok {A} a.
Arguments Raise {A} e.

Definition bind {A B : Type} (r : result A) (f : A -> result B) : result B :=
  match r with
  | Ok a => f a
  | Raise e => Raise e
  end.

Notation "x <- c ;; k" := (bind c (fun x => k))
  (at level 61, c at next level, right associativity).

(** ** Sequences: [len], [range], indexing and slicing *)

Definition len {A : Type} (l : list A) : Z := Z.of_nat (List.length l).

(** [range(n)]: empty when [n <= 0]. *)
Definition range (n : Z) : list Z := map Z.of_nat (seq 0 (Z.to_nat n)).

(** [l[i]]: a negative index counts from the end; out of range raises. *)
Definition index {A : Type} (l : list A) (i : Z) : result A :=
  let j := if i <? 0 then i + len l else i in
  if (j <? 0) || (len l <=? j) then Raise (IndexError "list index out of range")
  else match nth_error l (Z.to_nat j) with
       | Some x => Ok x
       | None => Raise (IndexError "list index out of range")
       end.

(** A slice bound, as [slice.indices] normalises it for step 1. *)
Definition clamp (n x : Z) : Z :=
  if x <? 0 then Z.max 0 (x + n) else Z.min x n.

(** [l[lo:hi]] *)
Definition slice {A : Type} (l : list A) (lo hi : Z) : list A :=
  let lo' := clamp (len l) lo in
  let hi' := clamp (len l) hi in
  firstn (Z.to_nat (hi' - lo')) (skipn (Z.to_nat lo') l).

(** [l[lo:]] *)
Definition slice_from {A : Type} (l : list A) (lo : Z) : list A :=
  skipn (Z.to_nat (clamp (len l) lo)) l.

(** ** Strings: [str.split()], [' '.join], [repr], [str] *)

(** [str.isspace] on a code point below 256. *)
Definition isspace (c : ascii) : bool :=
  let n := nat_of_ascii c in
  ((9 <=? n) && (n <=? 13) || (28 <=? n) && (n <=? 32)
   || (n =? 133) || (n =? 160))%nat.

Definition flush (cur : string) : list string :=
  match cur with
  | EmptyString => []
  | _ => [cur]
  end.

(** [split_from cur s]: the tokens of [s], where [cur] holds the characters
    of the token being read. *)
Fixpoint split_from (cur : string) (s : string) : list string :=
  match s with
  | EmptyString => flush cur
  | String c s' =>
      if isspace c then flush cur ++ split_from EmptyString s'
      else split_from (String.append cur (String c EmptyString)) s'
  end.

(** [s.split()]: the maximal runs of non-whitespace characters. *)
Definition split (s : string) : list string := split_from EmptyString s.

(** [str(n)] for an [int]. *)
Definition str_int (n : Z) : string := NilZero.string_of_int (Z.to_int n).

Definition backslash : ascii := ascii_of_nat 92.
Definition quote1 : ascii := ascii_of_nat 39.
Definition quote2 : ascii := ascii_of_nat 34.

Fixpoint mem_char (c : ascii) (s : string) : bool :=
  match s with
  | EmptyString => false
  | String c' s' => Ascii.eqb c c' || mem_char c s'
  end.

(** [str.isprintable] on a code point below 256. *)
Definition isprintable (c : ascii) : bool :=
  let n := nat_of_ascii c in
  ((32 <=? n) && (n <=? 126) || (161 <=? n) && negb (n =? 173))%nat.

Definition hex_digit (n : nat) : ascii :=
  nth n (list_ascii_of_string "0123456789abcdef") zero.

Definition repr_char (quote c : ascii) : string :=
  let n := nat_of_ascii c in
  if Ascii.eqb c quote || Ascii.eqb c backslash
  then String backslash (String c EmptyString)
  else if (n =? 9)%nat then String backslash "t"
  else if (n =? 10)%nat then String backslash "n"
  else if (n =? 13)%nat then String backslash "r"
  else if isprintable c then String c EmptyString
  else String backslash
         (String "x" (String (hex_digit (n / 16)) (String (hex_digit (n mod 16)) EmptyString))).

Fixpoint repr_chars (quote : ascii) (s : string) : string :=
  match s with
  | EmptyString => EmptyString
  | String c s' => String.append (repr_char quote c) (repr_chars quote s')
  end.

(** [repr(s)] for a [str]: single quotes, unless the text holds a single
    quote and no double quote. *)
Definition repr_str (s : string) : string :=
  let quote := if mem_char quote1 s && negb (mem_char quote2 s) then quote2 else quote1 in
  String quote (String.append (repr_chars quote s) (String quote EmptyString)).

Fixpoint concat_sep (sep : string) (parts : list string) : string :=
  match parts with
  | [] => EmptyString
  | [p] => p
  | p :: rest => String.append p (String.append sep (concat_sep sep rest))
  end.

(** [repr(v)] *)
Fixpoint repr (v : value) : string :=
  match v with
  | VStr s => repr_str s
  | VTuple items =>
      match items with
      | [x] => String.append "(" (String.append (repr x) ",)")
      | _ => String.append "(" (String.append (concat_sep ", " (map repr items)) ")")
      end
  end.

(** [str(v)], which is what an f-string field with no format spec shows. *)
Definition str (v : value) : string :=
  match v with
  | VStr s => s
  | VTuple _ => repr v
  end.

(** [sep.join(items)]: every item has to be a [str]. *)
Fixpoint join_from (sep : string) (i : Z) (items : list value) : result (list string) :=
  match items with
  | [] => Ok []
  | VStr s :: rest => parts <- join_from sep (i + 1) rest ;; Ok (s :: parts)
  | VTuple _ :: _ =>
      Raise (TypeError (String.append "sequence item "
                          (String.append (str_int i) ": expected str instance, tuple found")))
  end.

Definition join (sep : string) (items : list value) : result string :=
  parts <- join_from sep 0 items ;; Ok (concat_sep sep parts).

(** [list(v)]: the characters of a [str], the items of a tuple. *)
Definition list_of (v : value) : list value :=
  match v with
  | VStr s => map (fun c => VStr (String c EmptyString)) (list_ascii_of_string s)
  | VTuple items => items
  end.

(** ** Dictionaries *)

(** A [dict] from context keys to successor lists, in insertion order. *)
Definition dict : Type := list (value * list string).

Fixpoint dict_get (d : dict) (key : value) : option (list string) :=
  match d with
  | [] => None
  | (k', succ) :: d' => if value_eqb k' key then Some succ else dict_get d' key
  end.

(** [key in d] *)
Definition contains (d : dict) (key : value) : bool :=
  match dict_get d key with
  | Some _ => true
  | None => false
  end.

(** [d[key]] *)
Definition getitem (d : dict) (key : value) : result (list string) :=
  match dict_get d key with
  | Some succ => Ok succ
  | None => Raise (KeyError (repr key))
  end.

(** [d.keys()] *)
Definition keys (d : dict) : list value := map fst d.

(** [d[key].append(x)] on a [defaultdict(list)]: a missing key is first
    inserted, at the end, with an empty list. *)
Fixpoint append_at (d : dict) (key : value) (x : string) : dict :=
  match d with
  | [] => [(key, [x])]
  | (k', succ) :: d' =>
      if value_eqb k' key then (k', succ ++ [x]) :: d'
      else (k', succ) :: append_at d' key x
  end.

(** ** The module [random] *)

Record Random : Type := mkRandom {
  tape : nat -> nat;   (* the draws, in order *)
  used : nat           (* how many have been consumed *)
}.

(** [random.choice(seq)]: an empty sequence raises, otherwise one draw
    selects an index below [len(seq)]. *)
Definition choice {A : Type} (seq : list A) (g : Random) : result A * Random :=
  match seq with
  | [] => (Raise (IndexError "Cannot choose from an empty sequence"), g)
  | x :: _ =>
      (Ok (nth (tape g (used g) mod List.length seq)%nat seq x),
       mkRandom (tape g) (S (used g)))
  end.

(** ** class MarkovText *)

Record MarkovText : Type := mkMarkovText {
  corpus : string;
  k : Z;
  term_dict : option dict   (* [None] until built *)
}.

(** [MarkovText(corpus, k)] *)
Definition init (corpus : string) (k : Z) : MarkovText :=
  mkMarkovText corpus k None.

(** The key of the window that starts at [i]: [tokens[i]] for [k = 1],
    [tuple(tokens[i:i + k])] otherwise. *)
Definition state_at (tokens : list string) (k i : Z) : result value :=
  if k =? 1 then t <- index tokens i ;; Ok (VStr t)
  else Ok (VTuple (map VStr (slice tokens i (i + k)))).

(** The body of [for i in range(len(tokens) - self.k)]. *)
Fixpoint build_loop (tokens : list string) (k : Z) (indices : list Z)
    (term_dict : dict) : result dict :=
  match indices with
  | [] => Ok term_dict
  | i :: rest =>
      current_state <- state_at tokens k i ;;
      next_token <- index tokens (i + k) ;;
      build_loop tokens k rest (append_at term_dict current_state next_token)
  end.

(** The table of a corpus: the local [term_dict] when the loop is over. *)
Definition build (corpus : string) (k : Z) : result dict :=
  let tokens := split corpus in
  build_loop tokens k (range (len tokens - k)) [].

(** [self.get_term_dict()]: returns the table and stores it in the
    instance; an exception leaves the instance as it was. *)
Definition get_term_dict (self : MarkovText) : result dict * MarkovText :=
  match build (corpus self) (k self) with
  | Ok d => (Ok d, mkMarkovText (corpus self) (k self) (Some d))
  | Raise e => (Raise e, self)
  end.

(** The seed handling of [generate]. *)
Definition start_state (d : dict) (k : Z) (seed_term : option value)
    (g : Random) : result value * Random :=
  match seed_term with
  | None => choice (keys d) g
  | Some seed =>
      if (1 <? k) && isinstance_str seed then
        (Raise (ValueError
                  (String.append "For k="
                     (String.append (str_int k)
                        (String.append ", seed_term must be a tuple of "
                           (String.append (str_int k) " words"))))), g)
      else if negb (contains d seed) then
        (Raise (ValueError
                  (String.append "Seed term '"
                     (String.append (str seed) "' not found in corpus"))), g)
      else (Ok seed, g)
  end.

(** The test of the loop of [generate]:
    [current_state not in term_dict or len(term_dict[current_state]) == 0];
    the right operand is only evaluated when the left one is false. *)
Definition dead_end (d : dict) (current_state : value) : result bool :=
  if negb (contains d current_state) then Ok true
  else succ <- getitem d current_state ;; Ok (len succ =? 0).

(** The body of [for _ in range(words_to_generate)]. *)
Fixpoint generate_loop (d : dict) (k : Z) (rounds : list Z)
    (current_state : value) (generated_words : list value) (g : Random)
    : result (list value) * Random :=
  match rounds with
  | [] => (Ok generated_words, g)
  | _ :: rest =>
      match dead_end d current_state with
      | Raise e => (Raise e, g)
      | Ok true => (Ok generated_words, g)   (* break *)
      | Ok false =>
          match getitem d current_state with
          | Raise e => (Raise e, g)
          | Ok succ =>
              match choice succ g with
              | (Raise e, g') => (Raise e, g')
              | (Ok next_word, g') =>
                  let generated_words' := generated_words ++ [VStr next_word] in
                  let current_state' :=
                    if k =? 1 then VStr next_word
                    else VTuple (slice_from generated_words' (- k)) in
                  generate_loop d k rest current_state' generated_words' g'
              end
          end
      end
  end.

(** [generate] from the seed handling to the end of the loop: the list
    [generated_words] that is joined at the end. *)
Definition generate_words (d : dict) (k : Z) (seed_term : option value)
    (term_count : Z) (g : Random) : result (list value) * Random :=
  match start_state d k seed_term g with
  | (Raise e, g') => (Raise e, g')
  | (Ok current_state, g') =>
      let generated_words :=
        if k =? 1 then [current_state] else list_of current_state in
      let words_to_generate := term_count - len generated_words in
      generate_loop d k (range words_to_generate) current_state generated_words g'
  end.

(** [self.generate(seed_term, term_count)] *)
Definition generate (self : MarkovText) (seed_term : option value)
    (term_count : Z) (g : Random) : result string * MarkovText * Random :=
  let '(built, self') :=
    match term_dict self with
    | None => get_term_dict self
    | Some d => (Ok d, self)
    end in
  match built with
  | Raise e => (Raise e, self', g)
  | Ok d =>
      match generate_words d (k self') seed_term term_count g with
      | (Raise e, g') => (Raise e, self', g')
      | (Ok generated_words, g') => (join " " generated_words, self', g')
      end
  end.

(** ** Induction on values *)

Section ValueInd.
Variable P : value -> Prop.
Hypothesis HStr : forall s, P (VStr s).
Hypothesis HTuple : forall items, Forall P items -> P (VTuple items).

Fixpoint value_rect' (v : value) : P v :=
  match v with
  | VStr s => HStr s
  | VTuple items =>
      HTuple items
        ((fix go (l : list value) : Forall P l :=
            match l with
            | [] => Forall_nil P
            | x :: l' => Forall_cons x (value_rect' x) (go l')
            end) items)
  end.
End ValueInd.

(** ** Notions of the specification *)

(** The context key of the window [tokens[i..i+k)]: a single string when
    [k = 1], a [k]-tuple otherwise. *)
Definition context_key (tokens : list string) (k i : nat) : value :=
  if (k =? 1)%nat then VStr (nth i tokens EmptyString)
  else VTuple (map VStr (firstn k (skipn i tokens))).

(** The successors of a context [c] in the corpus, in order of occurrence:
    [tokens[i+k]] for each [i < len(tokens) - k] whose window is [c]. *)
Definition successors_of (tokens : list string) (k : nat) (c : value) : list string :=
  flat_map
    (fun i => if value_eqb (context_key tokens k i) c
              then [nth (i + k) tokens EmptyString] else [])
    (seq 0 (List.length tokens - k)).

(** The sum of the lengths of the successor lists of a table. *)
Definition total_successors (d : dict) : Z :=
  fold_right (fun entry acc => len (snd entry) + acc) 0 d.

(** The instances the class itself produces: the table is not built yet,
    or it is the one [get_term_dict] stored. *)
Definition consistent (self : MarkovText) : Prop :=
  match term_dict self with
  | None => True
  | Some d => build (corpus self) (k self) = Ok d
  end.

(** One round of the loop of [get_term_dict] at a window that lies inside
    the token list. *)
Definition record_window (tokens : list string) (k : nat) (d : dict) (i : nat) : dict :=
  append_at d (context_key tokens k i) (nth (i + k) tokens EmptyString).

(** A lookup result extended by later appends. *)
Definition extend (found : option (list string)) (more : list string)
    : option (list string) :=
  match found, more with
  | None, [] => None
  | None, _ => Some more
  | Some succ, _ => Some (succ ++ more)
  end.

(** A token as [split] yields them: not empty, no whitespace inside. *)
Fixpoint no_space (s : string) : bool :=
  match s with
  | EmptyString => true
  | String c s' => negb (isspace c) && no_space s'
  end.

Definition is_token (s : string) : Prop :=
  s <> EmptyString /\ no_space s = true.

(** The shape a seed must have for width [k]: a string for [k = 1], a
    tuple of exactly [k] strings for [k > 1]. *)
Definition well_shaped (k : Z) (seed : value) : bool :=
  if k =? 1 then isinstance_str seed
  else match seed with
       | VStr _ => false
       | VTuple items => (len items =? k) && forallb isinstance_str items
       end.

(** The tokens of a seed: the string itself, or the items of the tuple. *)
Definition seed_tokens (seed : value) : list string :=
  match seed with
  | VStr s => [s]
  | VTuple items => map str items
  end.

(** Every word of [ws] from position [from] on is a recorded successor of
    the context formed by the [k] words before it. *)
Definition chained (d : dict) (k from : nat) (ws : list string) : Prop :=
  forall j, (from <= j < List.length ws)%nat ->
    exists succ, dict_get d (context_key ws k (j - k)) = Some succ /\
                 In (nth j ws EmptyString) succ.

(** ** Notions for the further properties *)

(** The distinct values of a list, in order of first occurrence. *)
Fixpoint first_occurrences (l : list value) : list value :=
  match l with
  | [] => []
  | x :: l' => x :: filter (fun y => negb (value_eqb x y)) (first_occurrences l')
  end.

(** The context keys of the windows of a corpus, in corpus order. *)
Definition contexts (tokens : list string) (k : nat) : list value :=
  map (context_key tokens k) (seq 0 (List.length tokens - k)).

(** How often [x] occurs in [l]. *)
Definition count (x : string) (l : list string) : nat :=
  List.length (filter (String.eqb x) l).

(** How many windows of the corpus have context [c] and are followed by
    the token [x]. *)
Definition followed_by (tokens : list string) (k : nat) (c : value) (x : string) : nat :=
  List.length
    (filter (fun i => value_eqb (context_key tokens k i) c
                      && String.eqb x (nth (i + k) tokens EmptyString))
       (seq 0 (List.length tokens - k))).

(** The [n] consecutive items of [l] that start at position [i]. *)
Definition window {A : Type} (l : list A) (i n : nat) : list A :=
  firstn n (skipn i l).

(** * Properties *)

(** ** Equality of values *)

Lemma value_eqb_eq (a b : value) : value_eqb a b = true <-> a = b.
Proof.
  revert b. induction a as [s | items IH] using value_rect'; intros [t | ys]; simpl.
  - rewrite String.eqb_eq. split; congruence.
  - split; discriminate.
  - split; discriminate.
  - revert ys. induction IH as [| x xs Hx _ IHxs]; intros [| y ys].
    + split; reflexivity.
    + split; discriminate.
    + split; discriminate.
    + rewrite andb_true_iff, Hx, IHxs. split.
      * intros [-> E]. congruence.
      * intros E. injection E as -> ->. auto.
Qed.

Lemma value_eqb_refl (a : value) : value_eqb a a = true.
Proof. now apply value_eqb_eq. Qed.

Lemma value_eqb_neq (a b : value) : value_eqb a b = false <-> a <> b.
Proof.
  rewrite <- value_eqb_eq. destruct (value_eqb a b); split; congruence.
Qed.

(** ** Sequences *)

Lemma len_app {A : Type} (l1 l2 : list A) : len (l1 ++ l2) = len l1 + len l2.
Proof. unfold len. rewrite length_app. lia. Qed.

Lemma range_nonpos (n : Z) : n <= 0 -> range n = [].
Proof.
  intros H. unfold range. replace (Z.to_nat n) with 0%nat by lia. reflexivity.
Qed.

Lemma length_range (n : Z) : List.length (range n) = Z.to_nat n.
Proof. unfold range. now rewrite length_map, length_seq. Qed.

Lemma index_nat {A : Type} (l : list A) (i : nat) (dflt : A) :
  (i < List.length l)%nat -> index l (Z.of_nat i) = Ok (nth i l dflt).
Proof.
  intros H. unfold index, len.
  destruct (Z.of_nat i <? 0) eqn:E; [apply Z.ltb_lt in E; lia |].
  rewrite E.
  destruct (Z.of_nat (List.length l) <=? Z.of_nat i) eqn:E2;
    [apply Z.leb_le in E2; lia |].
  simpl. rewrite Nat2Z.id.
  destruct (nth_error l i) eqn:E3.
  - now rewrite (nth_error_nth _ _ dflt E3).
  - apply nth_error_None in E3. lia.
Qed.

Lemma slice_nat {A : Type} (l : list A) (i n : nat) :
  (i + n <= List.length l)%nat ->
  slice l (Z.of_nat i) (Z.of_nat i + Z.of_nat n) = firstn n (skipn i l).
Proof.
  intros H. unfold slice, clamp, len.
  destruct (Z.of_nat i <? 0) eqn:E; [apply Z.ltb_lt in E; lia |].
  destruct (Z.of_nat i + Z.of_nat n <? 0) eqn:E2; [apply Z.ltb_lt in E2; lia |].
  rewrite !Z.min_l by lia.
  replace (Z.to_nat (Z.of_nat i + Z.of_nat n - Z.of_nat i)) with n by lia.
  now rewrite Nat2Z.id.
Qed.

Lemma slice_from_last {A : Type} (l : list A) (n : nat) :
  (1 <= n <= List.length l)%nat ->
  slice_from l (- Z.of_nat n) = skipn (List.length l - n) l.
Proof.
  intros H. unfold slice_from, clamp, len.
  destruct (- Z.of_nat n <? 0) eqn:E; [| apply Z.ltb_ge in E; lia].
  f_equal. lia.
Qed.

(** ** Dictionaries *)

Lemma dict_get_append_at (d : dict) (key c : value) (x : string) :
  dict_get (append_at d key x) c =
  if value_eqb key c then extend (dict_get d c) [x] else dict_get d c.
Proof.
  induction d as [| [k' succ] d IH]; simpl.
  - destruct (value_eqb key c); reflexivity.
  - destruct (value_eqb k' key) eqn:E; simpl.
    + apply value_eqb_eq in E. subst k'.
      destruct (value_eqb key c); reflexivity.
    + destruct (value_eqb k' c) eqn:E2.
      * destruct (value_eqb key c) eqn:E3; [| reflexivity].
        apply value_eqb_eq in E2, E3. subst. now rewrite value_eqb_refl in E.
      * apply IH.
Qed.

Lemma dict_get_keys (d : dict) (c : value) :
  In c (keys d) <-> dict_get d c <> None.
Proof.
  induction d as [| [k' succ] d IH]; simpl.
  - split; [intros [] | congruence].
  - destruct (value_eqb k' c) eqn:E.
    + apply value_eqb_eq in E. split; [discriminate | auto].
    + apply value_eqb_neq in E. rewrite <- IH. split; [intros [|]; tauto | auto].
Qed.

Lemma keys_append_at (d : dict) (key : value) (x : string) :
  keys (append_at d key x) =
  if contains d key then keys d else keys d ++ [key].
Proof.
  unfold contains. induction d as [| [k' succ] d IH]; simpl.
  - reflexivity.
  - destruct (value_eqb k' key) eqn:E; simpl; [reflexivity |].
    rewrite IH. now destruct (dict_get d key).
Qed.

Lemma NoDup_keys_append_at (d : dict) (key : value) (x : string) :
  NoDup (keys d) -> NoDup (keys (append_at d key x)).
Proof.
  intros H. rewrite keys_append_at. unfold contains.
  destruct (dict_get d key) eqn:E; [assumption |].
  apply NoDup_app; [assumption | repeat constructor; intros [] | ].
  intros a Ha [<- | []]. apply dict_get_keys in Ha. contradiction.
Qed.

Lemma total_append_at (d : dict) (key : value) (x : string) :
  total_successors (append_at d key x) = total_successors d + 1.
Proof.
  induction d as [| [k' succ] d IH]; simpl.
  - reflexivity.
  - destruct (value_eqb k' key); simpl.
    + rewrite len_app. unfold len at 2. simpl. lia.
    + rewrite IH. lia.
Qed.

Lemma len_keys_append_at (d : dict) (key : value) (x : string) :
  len (keys (append_at d key x)) <= len (keys d) + 1.
Proof.
  rewrite keys_append_at. destruct (contains d key).
  - lia.
  - rewrite len_app. unfold len at 2. simpl. lia.
Qed.

Lemma extend_assoc (found : option (list string)) (l1 l2 : list string) :
  extend (extend found l1) l2 = extend found (l1 ++ l2).
Proof.
  destruct found as [succ |]; simpl.
  - now rewrite app_assoc.
  - destruct l1; simpl; [now destruct l2 | reflexivity].
Qed.

Lemma extend_nil (found : option (list string)) : extend found [] = found.
Proof. destruct found; simpl; [now rewrite app_nil_r | reflexivity]. Qed.

(** ** The loop of [get_term_dict] *)

Lemma state_at_nat (tokens : list string) (k : Z) (i : nat) :
  1 <= k -> (i + Z.to_nat k < List.length tokens)%nat ->
  state_at tokens k (Z.of_nat i) = Ok (context_key tokens (Z.to_nat k) i).
Proof.
  intros Hk Hi. unfold state_at, context_key.
  destruct (k =? 1) eqn:E.
  - apply Z.eqb_eq in E. subst k. simpl.
    rewrite (index_nat tokens i EmptyString) by lia. reflexivity.
  - apply Z.eqb_neq in E.
    destruct (Z.to_nat k =? 1)%nat eqn:E2; [apply Nat.eqb_eq in E2; lia |].
    replace (Z.of_nat i + k) with (Z.of_nat i + Z.of_nat (Z.to_nat k)) by lia.
    rewrite slice_nat by lia. reflexivity.
Qed.

Lemma build_loop_nat (tokens : list string) (k : Z) (windows : list nat) (d : dict) :
  1 <= k ->
  Forall (fun i => (i + Z.to_nat k < List.length tokens)%nat) windows ->
  build_loop tokens k (map Z.of_nat windows) d =
  Ok (fold_left (record_window tokens (Z.to_nat k)) windows d).
Proof.
  intros Hk H. revert d. induction H as [| i windows Hi _ IH]; intros d; simpl.
  - reflexivity.
  - rewrite state_at_nat by assumption. simpl.
    replace (Z.of_nat i + k) with (Z.of_nat (i + Z.to_nat k)) by lia.
    rewrite (index_nat tokens _ EmptyString) by assumption. simpl.
    apply IH.
Qed.

(** For [k >= 1] the loop never raises: the table is the fold of
    [record_window] over the windows [0 .. len(tokens) - k). *)
Lemma build_ok (corpus : string) (k : Z) :
  1 <= k ->
  build corpus k =
  Ok (fold_left (record_window (split corpus) (Z.to_nat k))
        (seq 0 (List.length (split corpus) - Z.to_nat k)) []).
Proof.
  intros Hk. unfold build, range, len.
  replace (Z.to_nat (Z.of_nat (List.length (split corpus)) - k))
    with (List.length (split corpus) - Z.to_nat k)%nat by lia.
  apply build_loop_nat; [assumption |].
  apply Forall_forall. intros i Hi. apply in_seq in Hi. lia.
Qed.

Lemma dict_get_fold (tokens : list string) (k : nat) (windows : list nat)
    (d : dict) (c : value) :
  dict_get (fold_left (record_window tokens k) windows d) c =
  extend (dict_get d c)
    (flat_map (fun i => if value_eqb (context_key tokens k i) c
                        then [nth (i + k) tokens EmptyString] else []) windows).
Proof.
  revert d. induction windows as [| i windows IH]; intros d; simpl.
  - now rewrite extend_nil.
  - rewrite IH. unfold record_window at 1. rewrite dict_get_append_at.
    destruct (value_eqb (context_key tokens k i) c).
    + now rewrite extend_assoc.
    + reflexivity.
Qed.

Lemma NoDup_keys_fold (tokens : list string) (k : nat) (windows : list nat) (d : dict) :
  NoDup (keys d) -> NoDup (keys (fold_left (record_window tokens k) windows d)).
Proof.
  revert d. induction windows as [| i windows IH]; intros d H; simpl.
  - assumption.
  - apply IH. now apply NoDup_keys_append_at.
Qed.

Lemma total_fold (tokens : list string) (k : nat) (windows : list nat) (d : dict) :
  total_successors (fold_left (record_window tokens k) windows d) =
  total_successors d + len windows.
Proof.
  revert d. induction windows as [| i windows IH]; intros d; simpl.
  - unfold len. simpl. lia.
  - rewrite IH. unfold record_window at 1. rewrite total_append_at.
    unfold len. simpl. lia.
Qed.

Lemma len_keys_fold (tokens : list string) (k : nat) (windows : list nat) (d : dict) :
  len (keys (fold_left (record_window tokens k) windows d)) <=
  len (keys d) + len windows.
Proof.
  revert d. induction windows as [| i windows IH]; intros d; simpl.
  - unfold len. simpl. lia.
  - specialize (IH (record_window tokens k d i)).
    pose proof (len_keys_append_at d (context_key tokens k i)
                  (nth (i + k) tokens EmptyString)) as H.
    fold (record_window tokens k d i) in H.
    unfold len in *. simpl in *. lia.
Qed.

Lemma get_term_dict_build (self : MarkovText) (d : dict) :
  build (corpus self) (k self) = Ok d ->
  get_term_dict self = (Ok d, mkMarkovText (corpus self) (k self) (Some d)).
Proof. intros H. unfold get_term_dict. now rewrite H. Qed.

Lemma successors_of_window (tokens : list string) (k i : nat) :
  (i < List.length tokens - k)%nat ->
  In (nth (i + k) tokens EmptyString) (successors_of tokens k (context_key tokens k i)).
Proof.
  intros H. unfold successors_of. apply in_flat_map. exists i. split.
  - apply in_seq. lia.
  - rewrite value_eqb_refl. now left.
Qed.

Lemma successors_of_inv (tokens : list string) (k : nat) (c : value) (x : string) :
  In x (successors_of tokens k c) ->
  exists i, (i < List.length tokens - k)%nat /\ c = context_key tokens k i /\
            x = nth (i + k) tokens EmptyString.
Proof.
  unfold successors_of. intros H. apply in_flat_map in H as (i & Hi & Hx).
  apply in_seq in Hi. exists i. split; [lia |].
  destruct (value_eqb (context_key tokens k i) c) eqn:E; [| destruct Hx].
  apply value_eqb_eq in E. destruct Hx as [<- | []]. auto.
Qed.

(** The table of a corpus, for [k >= 1], as a mapping. *)
Lemma build_lookup (corpus : string) (k : Z) :
  1 <= k ->
  exists d, build corpus k = Ok d /\ NoDup (keys d) /\
    forall c, dict_get d c = extend None (successors_of (split corpus) (Z.to_nat k) c).
Proof.
  intros Hk. eexists. split; [now apply build_ok |]. split.
  - apply NoDup_keys_fold. constructor.
  - intros c. now rewrite dict_get_fold.
Qed.

(** C1. For every corpus and every k >= 1, [get_term_dict] returns (and
    stores) a table with one entry per distinct context: looking up a
    context [c] gives exactly the tokens [tokens[i+k]] of the windows
    [i < len(tokens) - k] whose key [tokens[i..i+k)] is [c], once per window
    and in order of occurrence, and gives nothing when no window has key
    [c]. For the corpus "the cat sat on the mat the cat ran" and k = 1 the
    entry of "the" is ["cat","mat","cat"] and that of "cat" is
    ["sat","ran"]. *)
Theorem get_term_dict_table (self : MarkovText) :
  1 <= k self ->
  let tokens := split (corpus self) in
  let width := Z.to_nat (k self) in
  exists d,
    get_term_dict self = (Ok d, mkMarkovText (corpus self) (k self) (Some d)) /\
    NoDup (keys d) /\
    (forall c, dict_get d c =
               match successors_of tokens width c with
               | [] => None
               | x :: succ => Some (x :: succ)
               end) /\
    (forall i, (i < List.length tokens - width)%nat ->
               exists succ, dict_get d (context_key tokens width i) = Some succ /\
                            In (nth (i + width) tokens EmptyString) succ) /\
    (corpus self = "the cat sat on the mat the cat ran" -> k self = 1 ->
     dict_get d (VStr "the") = Some ["cat"; "mat"; "cat"] /\
     dict_get d (VStr "cat") = Some ["sat"; "ran"]).
Proof.
  intros Hk tokens width.
  destruct (build_lookup (corpus self) (k self) Hk) as (d & Hb & Hnd & Hget).
  assert (Hget' : forall c, dict_get d c =
               match successors_of tokens width c with
               | [] => None
               | x :: succ => Some (x :: succ)
               end).
  { intros c. rewrite Hget. fold tokens width.
    now destruct (successors_of tokens width c). }
  exists d. split; [now apply get_term_dict_build |].
  split; [assumption |]. split; [assumption |]. split.
  - intros i Hi. rewrite Hget'.
    pose proof (successors_of_window tokens width i Hi) as Hin.
    destruct (successors_of tokens width (context_key tokens width i)) as [| x succ].
    + destruct Hin.
    + now exists (x :: succ).
  - intros Hc H1. rewrite !Hget'. subst tokens width. rewrite Hc, H1.
    split; reflexivity.
Qed.

Lemma get_term_dict_table_witness :
  exists d, get_term_dict (init "to be or not to be" 2) =
            (Ok d, mkMarkovText "to be or not to be" 2 (Some d)) /\
            dict_get d (VTuple [VStr "to"; VStr "be"]) = Some ["or"].
Proof.
  destruct (get_term_dict_table (init "to be or not to be" 2)) as (d & H & _ & Hc & _).
  - simpl. lia.
  - exists d. split; [exact H |]. rewrite Hc. reflexivity.
Defined.

(** C8, as stated, fails on the empty corpus: with k = 1 the table is
    empty, so the count is 0 and not len(tokens) - 1 = -1. *)
Lemma total_successors_empty_corpus :
  exists d, fst (get_term_dict (init "" 1)) = Ok d /\
            total_successors d <> len (split "") - 1.
Proof. exists []. split; [reflexivity | discriminate]. Qed.

(** C8 (amended). For every corpus and k >= 1, the successor lists of the
    built table hold max(0, len(tokens) - k) entries in all and the table
    has at most that many keys; so for a corpus of at least k tokens the
    total is exactly len(tokens) - k (len(tokens) - 1 for k = 1) and the
    number of distinct keys is at most len(tokens) - k. *)
Theorem total_successors_count (self : MarkovText) :
  1 <= k self ->
  let tokens := split (corpus self) in
  exists d,
    fst (get_term_dict self) = Ok d /\
    total_successors d = Z.max 0 (len tokens - k self) /\
    len (keys d) <= Z.max 0 (len tokens - k self) /\
    (k self <= len tokens ->
     total_successors d = len tokens - k self /\
     len (keys d) <= len tokens - k self).
Proof.
  intros Hk tokens. eexists. split.
  { erewrite get_term_dict_build; [reflexivity | now apply build_ok]. }
  fold tokens.
  set (windows := seq 0 (List.length tokens - Z.to_nat (k self))).
  assert (Hw : len windows = Z.max 0 (len tokens - k self)).
  { unfold windows, len. rewrite length_seq. lia. }
  pose proof (total_fold tokens (Z.to_nat (k self)) windows []) as Ht.
  pose proof (len_keys_fold tokens (Z.to_nat (k self)) windows []) as Hn.
  change (total_successors []) with 0 in Ht.
  change (len (keys [])) with 0 in Hn.
  repeat split; lia.
Qed.

Lemma total_successors_count_witness :
  exists d, fst (get_term_dict (init "the cat sat on the mat" 2)) = Ok d /\
            total_successors d = 4.
Proof.
  destruct (total_successors_count (init "the cat sat on the mat" 2)) as (d & H & Ht & _).
  - simpl. lia.
  - exists d. split; [exact H | exact Ht].
Defined.

(** ** Successor lists are never empty *)

Lemma nonempty_append_at (d : dict) (key : value) (x : string) :
  Forall (fun entry => snd entry <> []) d ->
  Forall (fun entry => snd entry <> []) (append_at d key x).
Proof.
  induction 1 as [| [k' succ] d Hn Hd IH]; simpl.
  - repeat constructor. discriminate.
  - destruct (value_eqb k' key); constructor; simpl in *; auto.
    intros E. apply app_eq_nil in E as [_ E]. discriminate.
Qed.

Lemma nonempty_build_loop (tokens : list string) (k : Z) (indices : list Z)
    (d d' : dict) :
  Forall (fun entry => snd entry <> []) d ->
  build_loop tokens k indices d = Ok d' ->
  Forall (fun entry => snd entry <> []) d'.
Proof.
  revert d. induction indices as [| i rest IH]; intros d Hd; simpl.
  - intros [= <-]. assumption.
  - destruct (state_at tokens k i) as [current_state | e]; simpl; [| discriminate].
    destruct (index tokens (i + k)) as [next_token | e]; simpl; [| discriminate].
    apply IH. now apply nonempty_append_at.
Qed.

Lemma dict_get_nonempty (d : dict) (key : value) (succ : list string) :
  Forall (fun entry => snd entry <> []) d ->
  dict_get d key = Some succ -> succ <> [].
Proof.
  induction 1 as [| [k' succ'] d Hn _ IH]; simpl; [discriminate |].
  destruct (value_eqb k' key); [| assumption].
  intros [= <-]. assumption.
Qed.

Lemma build_nonempty (corpus : string) (k : Z) (d : dict) (key : value)
    (succ : list string) :
  build corpus k = Ok d -> dict_get d key = Some succ -> succ <> [].
Proof.
  intros Hb. apply dict_get_nonempty.
  apply (nonempty_build_loop _ _ _ [] d (Forall_nil _) Hb).
Qed.

Lemma get_term_dict_fst (self : MarkovText) :
  fst (get_term_dict self) = build (corpus self) (k self).
Proof. unfold get_term_dict. now destruct (build (corpus self) (k self)). Qed.

Lemma dead_end_nonempty (d : dict) (key : value) :
  (forall succ, dict_get d key = Some succ -> succ <> []) ->
  dead_end d key = Ok (negb (contains d key)).
Proof.
  intros H. unfold dead_end, getitem, contains.
  destruct (dict_get d key) as [succ |] eqn:E; simpl; [| reflexivity].
  specialize (H succ eq_refl). destruct succ; [contradiction | reflexivity].
Qed.

(** C10. In every table that [get_term_dict] returns, whatever k is, every
    successor list is non-empty; so the dead-end test of [generate] is
    true on such a table exactly when the context is not a key. *)
Theorem successor_lists_nonempty (self : MarkovText) (d : dict) :
  fst (get_term_dict self) = Ok d ->
  forall key,
    (forall succ, dict_get d key = Some succ -> succ <> []) /\
    dead_end d key = Ok (negb (contains d key)).
Proof.
  rewrite get_term_dict_fst. intros Hb key.
  assert (H : forall succ, dict_get d key = Some succ -> succ <> []).
  { intros succ. now apply (build_nonempty _ _ _ _ _ Hb). }
  split; [exact H | now apply dead_end_nonempty].
Qed.

Lemma successor_lists_nonempty_witness :
  dead_end [(VStr "a", ["b"; "c"]); (VStr "b", ["a"])] (VStr "c") = Ok true.
Proof.
  apply (successor_lists_nonempty (init "a b a c" 1)
           [(VStr "a", ["b"; "c"]); (VStr "b", ["a"])] eq_refl (VStr "c")).
Defined.

(** ** Building twice *)

(** C9, as stated, fails: [get_term_dict] is not memoized. A memoized
    build returns the table the instance already holds; on an instance that
    holds one (here a table the caller has emptied in place through the
    reference it got back) [get_term_dict] builds a new table from the
    corpus and returns that instead. *)
Lemma get_term_dict_not_memoized :
  let self := mkMarkovText "a b" 1 (Some []) in
  term_dict self = Some [] /\
  fst (get_term_dict self) = Ok [(VStr "a", ["b"])] /\
  fst (get_term_dict self) <> Ok [].
Proof. simpl. repeat split. discriminate. Qed.

(** C9 (amended). The table [get_term_dict] returns is a function of
    (corpus, k) alone, whatever table the instance holds; a second call on
    the resulting instance returns the same table (same keys in the same
    order, same successor lists) and leaves the instance as the first call
    left it; the table is stored in the instance, and [generate] then uses
    the stored table: on the resulting instance it returns what it returns
    on a fresh one, and does not change the instance. *)
Theorem get_term_dict_idempotent (self : MarkovText) :
  let first_call := get_term_dict self in
  let second_call := get_term_dict (snd first_call) in
  fst first_call = build (corpus self) (k self) /\
  fst first_call = fst (get_term_dict (init (corpus self) (k self))) /\
  second_call = first_call /\
  (forall d, fst first_call = Ok d ->
     term_dict (snd first_call) = Some d /\
     (forall d', fst second_call = Ok d' ->
        keys d' = keys d /\ forall c, dict_get d' c = dict_get d c) /\
     forall seed_term term_count g,
       generate (snd first_call) seed_term term_count g =
       generate (init (corpus self) (k self)) seed_term term_count g /\
       snd (fst (generate (snd first_call) seed_term term_count g)) = snd first_call).
Proof.
  intros first_call second_call.
  assert (Hfst : fst first_call = build (corpus self) (k self))
    by apply get_term_dict_fst.
  split; [exact Hfst |]. split; [now rewrite Hfst, get_term_dict_fst |].
  destruct (build (corpus self) (k self)) as [d | e] eqn:Hb.
  - assert (H1 : first_call = (Ok d, mkMarkovText (corpus self) (k self) (Some d)))
      by now apply get_term_dict_build.
    assert (H2 : second_call = first_call).
    { unfold second_call. rewrite H1.
      now apply (get_term_dict_build (mkMarkovText (corpus self) (k self) (Some d))). }
    split; [exact H2 |]. rewrite H2, H1. simpl.
    intros d0 [= <-]. split; [reflexivity |]. split.
    + now intros d' [= <-].
    + intros seed_term term_count g.
      unfold generate, init, get_term_dict. simpl. rewrite Hb. simpl.
      destruct (generate_words d (k self) seed_term term_count g) as [[ws | e] g'];
        split; reflexivity.
  - assert (H1 : first_call = (Raise e, self)).
    { unfold first_call, get_term_dict. now rewrite Hb. }
    split.
    + unfold second_call. now rewrite H1.
    + rewrite Hfst. discriminate.
Qed.

(** ** The instances the class produces *)

Lemma consistent_init (corpus : string) (k : Z) : consistent (init corpus k).
Proof. exact I. Qed.

Lemma consistent_get_term_dict (self : MarkovText) :
  consistent self -> consistent (snd (get_term_dict self)).
Proof.
  intros H. unfold get_term_dict.
  destruct (build (corpus self) (k self)) eqn:Hb; simpl; [exact Hb | exact H].
Qed.

Lemma consistent_generate (self : MarkovText) (seed_term : option value)
    (term_count : Z) (g : Random) :
  consistent self -> consistent (snd (fst (generate self seed_term term_count g))).
Proof.
  intros H. unfold generate.
  destruct (term_dict self) as [d |] eqn:E.
  - now destruct (generate_words d (k self) seed_term term_count g) as [[ws | e] g'].
  - pose proof (consistent_get_term_dict self H) as H'.
    destruct (get_term_dict self) as [[d | e] self']; simpl in *; [| exact H'].
    now destruct (generate_words d (k self') seed_term term_count g) as [[ws | e'] g'].
Qed.

(** ** A corpus too short for its width *)

Lemma build_short (corpus : string) (k : Z) :
  len (split corpus) < k + 1 -> build corpus k = Ok [].
Proof.
  intros H. unfold build. now rewrite range_nonpos by lia.
Qed.

(** C5. When the corpus has fewer than k+1 tokens the built table is
    empty, and [generate] with no seed raises: the exception is the
    IndexError of [random.choice] on an empty sequence, which is how the
    code signals an empty model. It is told apart from the failures of a
    supplied seed, which on such a model all raise ValueError. *)
Theorem short_corpus_empty_model (self : MarkovText) (term_count : Z) (g : Random) :
  consistent self ->
  len (split (corpus self)) < k self + 1 ->
  fst (get_term_dict self) = Ok [] /\
  generate self None term_count g =
    (Raise (IndexError "Cannot choose from an empty sequence"),
     mkMarkovText (corpus self) (k self) (Some []), g) /\
  forall seed, exists msg,
    fst (fst (generate self (Some seed) term_count g)) = Raise (ValueError msg).
Proof.
  intros Hc Hlen. pose proof (build_short _ _ Hlen) as Hb.
  split; [now rewrite get_term_dict_fst |].
  assert (Hg : (match term_dict self with
                | None => get_term_dict self
                | Some d => (Ok d, self)
                end) = (Ok [], mkMarkovText (corpus self) (k self) (Some []))).
  { unfold consistent in Hc. destruct self as [c w [d |]]; simpl in *.
    - rewrite Hb in Hc. now injection Hc as <-.
    - unfold get_term_dict. simpl. now rewrite Hb. }
  unfold generate. rewrite Hg. split; [reflexivity |].
  intros seed. unfold generate_words, start_state. simpl.
  destruct ((1 <? k self) && isinstance_str seed); eexists; reflexivity.
Qed.

Lemma short_corpus_empty_model_witness :
  generate (init "hello" 1) None 15 (mkRandom (fun _ => 0%nat) 0) =
    (Raise (IndexError "Cannot choose from an empty sequence"),
     mkMarkovText "hello" 1 (Some []), mkRandom (fun _ => 0%nat) 0).
Proof.
  apply (short_corpus_empty_model (init "hello" 1) 15 (mkRandom (fun _ => 0%nat) 0)).
  - exact I.
  - reflexivity.
Defined.

(** ** [split] and [join] *)

Lemma no_space_append (s t : string) :
  no_space (String.append s t) = no_space s && no_space t.
Proof.
  induction s as [| c s IH]; simpl; [reflexivity |].
  rewrite IH. now rewrite andb_assoc.
Qed.

Lemma append_nil_r (s : string) : String.append s EmptyString = s.
Proof. induction s as [| c s IH]; simpl; [reflexivity | now rewrite IH]. Qed.

Lemma append_assoc (s t u : string) :
  String.append (String.append s t) u = String.append s (String.append t u).
Proof. induction s as [| c s IH]; simpl; [reflexivity | now rewrite IH]. Qed.

Lemma flush_token (cur : string) : no_space cur = true -> Forall is_token (flush cur).
Proof.
  intros H. destruct cur as [| c cur]; simpl; constructor; [| constructor].
  split; [discriminate | assumption].
Qed.

Lemma split_from_tokens (s cur : string) :
  no_space cur = true -> Forall is_token (split_from cur s).
Proof.
  revert cur. induction s as [| c s IH]; intros cur H; simpl.
  - now apply flush_token.
  - destruct (isspace c) eqn:E.
    + apply Forall_app. split; [now apply flush_token | now apply IH].
    + apply IH. rewrite no_space_append, H. simpl. now rewrite E.
Qed.

(** Every token of a corpus is non-empty and free of whitespace. *)
Lemma split_tokens (s : string) : Forall is_token (split s).
Proof. now apply split_from_tokens. Qed.

Lemma split_from_word (w rest cur : string) :
  no_space w = true ->
  split_from cur (String.append w rest) = split_from (String.append cur w) rest.
Proof.
  revert cur. induction w as [| c w IH]; intros cur H; simpl in *.
  - now rewrite append_nil_r.
  - apply andb_true_iff in H as [Hc Hw]. apply negb_true_iff in Hc. rewrite Hc.
    rewrite IH by assumption. now rewrite append_assoc.
Qed.

Lemma split_from_space (rest cur : string) :
  split_from cur (String.append " " rest) = flush cur ++ split_from EmptyString rest.
Proof. reflexivity. Qed.

(** Splitting the join of tokens gives the tokens back. *)
Lemma split_concat_sep (ws : list string) :
  Forall is_token ws -> split (concat_sep " " ws) = ws.
Proof.
  unfold split. induction 1 as [| w ws [Hne Hns] Hws IH]; [reflexivity |].
  destruct ws as [| w2 ws].
  - simpl. rewrite <- (append_nil_r w) at 1. rewrite split_from_word by assumption.
    simpl. now destruct w.
  - change (concat_sep " " (w :: w2 :: ws))
      with (String.append w (String.append " " (concat_sep " " (w2 :: ws)))).
    rewrite split_from_word by assumption.
    change (String.append EmptyString w) with w.
    rewrite split_from_space, IH. now destruct w.
Qed.

Lemma join_strings (sep : string) (ws : list string) :
  join sep (map VStr ws) = Ok (concat_sep sep ws).
Proof.
  unfold join. generalize 0 as i.
  assert (H : forall i, join_from sep i (map VStr ws) = Ok ws).
  { induction ws as [| w ws IH]; intros i; simpl; [reflexivity |].
    now rewrite IH. }
  intros i. now rewrite H.
Qed.

(** ** The loop of [generate] *)

Lemma choice_in {A : Type} (seq : list A) (g : Random) :
  seq <> [] ->
  exists x, choice seq g = (Ok x, mkRandom (tape g) (S (used g))) /\ In x seq.
Proof.
  intros H. destruct seq as [| x0 seq]; [contradiction |].
  eexists. split; [reflexivity |].
  apply nth_In. apply Nat.mod_upper_bound. discriminate.
Qed.

Lemma context_key_app (ws more : list string) (k i : nat) :
  (1 <= k)%nat -> (i + k <= List.length ws)%nat ->
  context_key (ws ++ more) k i = context_key ws k i.
Proof.
  intros Hk Hi. unfold context_key. destruct (k =? 1)%nat.
  - now rewrite app_nth1 by lia.
  - rewrite skipn_app. rewrite firstn_app, length_skipn.
    replace (k - (List.length ws - i))%nat with 0%nat by lia.
    replace (i - List.length ws)%nat with 0%nat by lia.
    simpl. now rewrite app_nil_r.
Qed.

Lemma context_key_last (ws : list string) (k : nat) :
  (1 <= k <= List.length ws)%nat ->
  (if Z.of_nat k =? 1 then VStr (last ws EmptyString)
   else VTuple (slice_from (map VStr ws) (- Z.of_nat k))) =
  context_key ws k (List.length ws - k).
Proof.
  intros Hk. unfold context_key.
  destruct (Z.of_nat k =? 1) eqn:E.
  - apply Z.eqb_eq in E. replace k with 1%nat by lia. simpl.
    destruct ws as [| w ws] using rev_ind; [simpl in Hk; lia |].
    rewrite last_last, length_app. simpl.
    rewrite app_nth2 by lia. now replace (_ - _)%nat with 0%nat by lia.
  - apply Z.eqb_neq in E.
    destruct (k =? 1)%nat eqn:E2; [apply Nat.eqb_eq in E2; lia |].
    rewrite slice_from_last by (rewrite length_map; lia).
    rewrite length_map, skipn_map. f_equal. f_equal.
    rewrite firstn_all2; [reflexivity |]. rewrite length_skipn. lia.
Qed.

Lemma chained_snoc (d : dict) (width from : nat) (ws succ : list string) (x : string) :
  (1 <= width <= List.length ws)%nat ->
  chained d width from ws ->
  dict_get d (context_key ws width (List.length ws - width)) = Some succ ->
  In x succ ->
  chained d width from (ws ++ [x]).
Proof.
  intros Hw Hch Hget Hin j Hj. rewrite length_app in Hj. simpl in Hj.
  rewrite context_key_app by lia.
  destruct (Nat.eq_dec j (List.length ws)) as [-> | Hne].
  - exists succ. split; [assumption |].
    rewrite app_nth2 by lia. now replace (_ - _)%nat with 0%nat by lia.
  - rewrite app_nth1 by lia. apply Hch. lia.
Qed.

Section GenerateLoop.
Variable d : dict.
Variable width : nat.
Hypothesis Hwidth : (1 <= width)%nat.
Hypothesis Hne : forall c succ, dict_get d c = Some succ -> succ <> [].
Hypothesis Htok : forall c succ x, dict_get d c = Some succ -> In x succ -> is_token x.

(** On a table whose lists are non-empty the loop never raises. It
    appends at most one word per round, each a successor of the context
    before it, uses one draw per word, and stops short of its rounds only
    at a context that is not a key. *)
Lemma generate_loop_run (rounds : list Z) (from : nat) :
  forall (ws : list string) (g : Random),
  (width <= List.length ws)%nat ->
  chained d width from ws ->
  exists more g',
    generate_loop d (Z.of_nat width) rounds
      (context_key ws width (List.length ws - width)) (map VStr ws) g =
      (Ok (map VStr (ws ++ more)), g') /\
    tape g' = tape g /\
    used g' = (used g + List.length more)%nat /\
    (List.length more <= List.length rounds)%nat /\
    ((List.length more < List.length rounds)%nat ->
     dict_get d (context_key (ws ++ more) width
                   (List.length (ws ++ more) - width)) = None) /\
    Forall is_token more /\
    chained d width from (ws ++ more).
Proof.
  induction rounds as [| r rounds IH]; intros ws g Hlen Hch.
  - exists [], g. rewrite app_nil_r. simpl.
    repeat split; auto; lia.
  - simpl. rewrite dead_end_nonempty by apply Hne.
    unfold contains, getitem.
    destruct (dict_get d (context_key ws width (List.length ws - width)))
      as [succ |] eqn:Hget; simpl.
    + destruct (choice_in succ g (Hne _ _ Hget)) as (x & Hx & Hin).
      rewrite Hx.
      replace (map VStr ws ++ [VStr x]) with (map VStr (ws ++ [x]))
        by now rewrite map_app.
      assert (Hlast : (if Z.of_nat width =? 1 then VStr x
                       else VTuple (slice_from (map VStr (ws ++ [x])) (- Z.of_nat width))) =
                      context_key (ws ++ [x]) width (List.length (ws ++ [x]) - width)).
      { rewrite <- context_key_last by (rewrite length_app; simpl; lia).
        now rewrite last_last. }
      rewrite Hlast.
      destruct (IH (ws ++ [x]) (mkRandom (tape g) (S (used g))))
        as (more & g' & Hrun & Ht & Hu & Hle & Hstop & Htoks & Hch').
      { rewrite length_app. simpl. lia. }
      { apply (chained_snoc d width from ws succ x); auto; lia. }
      exists (x :: more), g'.
      replace (ws ++ x :: more) with ((ws ++ [x]) ++ more)
        by now rewrite <- app_assoc.
      simpl in *. repeat split; auto; try lia.
      * intros H. apply Hstop. lia.
      * constructor; [now apply (Htok _ _ _ Hget) | assumption].
    + exists [], g. rewrite app_nil_r. simpl.
      repeat split; auto; lia.
Qed.
End GenerateLoop.

(** ** Built tables *)

Lemma build_key (corpus : string) (k : Z) (d : dict) (c : value) :
  1 <= k -> build corpus k = Ok d -> dict_get d c <> None ->
  exists i, (i < List.length (split corpus) - Z.to_nat k)%nat /\
            c = context_key (split corpus) (Z.to_nat k) i.
Proof.
  intros Hk Hb Hget.
  destruct (build_lookup corpus k Hk) as (d' & Hb' & _ & Hl).
  assert (d' = d) by congruence. subst d'. rewrite Hl in Hget.
  destruct (successors_of (split corpus) (Z.to_nat k) c) as [| x succ] eqn:E;
    [now contradiction Hget |].
  destruct (successors_of_inv (split corpus) (Z.to_nat k) c x) as (i & Hi & Hc & _).
  { rewrite E. now left. }
  now exists i.
Qed.

Lemma nth_token (tokens : list string) (i : nat) :
  Forall is_token tokens -> (i < List.length tokens)%nat ->
  is_token (nth i tokens EmptyString).
Proof.
  intros H Hi. rewrite Forall_forall in H. apply H. now apply nth_In.
Qed.

Lemma build_successor_token (corpus : string) (k : Z) (d : dict) (c : value)
    (succ : list string) (x : string) :
  1 <= k -> build corpus k = Ok d -> dict_get d c = Some succ -> In x succ ->
  is_token x.
Proof.
  intros Hk Hb Hget Hin.
  destruct (build_lookup corpus k Hk) as (d' & Hb' & _ & Hl).
  assert (d' = d) by congruence. subst d'. rewrite Hl in Hget.
  assert (Hin' : In x (successors_of (split corpus) (Z.to_nat k) c)).
  { destruct (successors_of (split corpus) (Z.to_nat k) c); simpl in Hget;
      [discriminate | now injection Hget as <-]. }
  destruct (successors_of_inv _ _ _ _ Hin') as (i & Hi & _ & ->).
  apply nth_token; [apply split_tokens | lia].
Qed.

(** The words a key of a built table starts the output with. *)
Lemma context_key_seed (tokens : list string) (width i : nat) :
  (1 <= width)%nat -> (i < List.length tokens - width)%nat ->
  Forall is_token tokens ->
  let cs := context_key tokens width i in
  (if Z.of_nat width =? 1 then [cs] else list_of cs) = map VStr (seed_tokens cs) /\
  List.length (seed_tokens cs) = width /\
  Forall is_token (seed_tokens cs) /\
  cs = context_key (seed_tokens cs) width (List.length (seed_tokens cs) - width) /\
  well_shaped (Z.of_nat width) cs = true.
Proof.
  intros Hw Hi Htok. unfold context_key, well_shaped.
  destruct (width =? 1)%nat eqn:E.
  - apply Nat.eqb_eq in E. subst width. simpl.
    repeat split. constructor; [| constructor]. apply nth_token; [assumption | lia].
  - apply Nat.eqb_neq in E.
    destruct (Z.of_nat width =? 1) eqn:E2; [apply Z.eqb_eq in E2; lia |].
    assert (Hl : List.length (firstn width (skipn i tokens)) = width).
    { rewrite length_firstn, length_skipn. lia. }
    assert (Hs : map str (map VStr (firstn width (skipn i tokens))) =
                 firstn width (skipn i tokens)).
    { rewrite map_map. apply map_id. }
    simpl. rewrite Hs, Hl, Nat.sub_diag. simpl.
    rewrite (firstn_all2 (n := width) (firstn width (skipn i tokens))) by lia.
    repeat split.
    + rewrite Forall_forall in *. intros x Hx. apply Htok.
      rewrite <- (firstn_skipn i tokens). apply in_or_app. right.
      rewrite <- (firstn_skipn width (skipn i tokens)). apply in_or_app. now left.
    + unfold len. rewrite length_map, Hl. rewrite Z.eqb_refl. simpl.
      apply forallb_forall. intros v Hv. apply in_map_iff in Hv as (s & <- & _).
      reflexivity.
Qed.

Lemma generate_built (self : MarkovText) (seed_term : option value)
    (term_count : Z) (g : Random) :
  1 <= k self -> consistent self ->
  exists d,
    build (corpus self) (k self) = Ok d /\
    generate self seed_term term_count g =
    match generate_words d (k self) seed_term term_count g with
    | (Raise e, g') => (Raise e, mkMarkovText (corpus self) (k self) (Some d), g')
    | (Ok generated_words, g') =>
        (join " " generated_words, mkMarkovText (corpus self) (k self) (Some d), g')
    end.
Proof.
  intros Hk Hc. unfold consistent in Hc. unfold generate.
  destruct self as [c w [d |]]; simpl in *.
  - exists d. split; [assumption | reflexivity].
  - rewrite build_ok in * by assumption. unfold get_term_dict. simpl.
    rewrite build_ok by assumption. eexists. split; reflexivity.
Qed.

(** ** Runs of [generate] on a built table *)

Lemma well_shaped_passes (k : Z) (seed : value) :
  1 <= k -> well_shaped k seed = true -> (1 <? k) && isinstance_str seed = false.
Proof.
  intros Hk H. unfold well_shaped in H. destruct (k =? 1) eqn:E.
  - apply Z.eqb_eq in E. subst k. reflexivity.
  - destruct seed; [discriminate | apply andb_false_r].
Qed.

(** A state the seed handling accepts is a key of the table; a supplied
    seed costs no draw, a random one costs one. *)
Lemma start_state_key (d : dict) (k : Z) (seed_term : option value)
    (g g0 : Random) (cs : value) :
  start_state d k seed_term g = (Ok cs, g0) ->
  dict_get d cs <> None /\ tape g0 = tape g /\
  used g0 = (used g + match seed_term with Some _ => 0 | None => 1 end)%nat.
Proof.
  unfold start_state. destruct seed_term as [seed |].
  - destruct ((1 <? k) && isinstance_str seed); [discriminate |].
    unfold contains. destruct (dict_get d seed) eqn:E; simpl; [| discriminate].
    intros [= <- <-]. rewrite E. repeat split; [discriminate | lia].
  - destruct (keys d) as [| key0 rest] eqn:E; [simpl; discriminate |].
    destruct (choice_in (key0 :: rest) g) as (x & Hx & Hin); [discriminate |].
    rewrite Hx. intros [= <- <-]. simpl. repeat split; [| lia].
    apply dict_get_keys. now rewrite E.
Qed.

Lemma generate_run (self : MarkovText) (seed_term : option value) (term_count : Z)
    (g g0 : Random) (d : dict) (cs : value) :
  1 <= k self -> consistent self ->
  build (corpus self) (k self) = Ok d ->
  start_state d (k self) seed_term g = (Ok cs, g0) ->
  exists more g',
    let ws := seed_tokens cs ++ more in
    let width := Z.to_nat (k self) in
    generate self seed_term term_count g =
      (Ok (concat_sep " " ws), mkMarkovText (corpus self) (k self) (Some d), g') /\
    split (concat_sep " " ws) = ws /\
    (if k self =? 1 then [cs] else list_of cs) = map VStr (seed_tokens cs) /\
    List.length (seed_tokens cs) = width /\
    tape g' = tape g0 /\
    used g' = (used g0 + List.length more)%nat /\
    (List.length more <= Z.to_nat (term_count - k self))%nat /\
    ((List.length more < Z.to_nat (term_count - k self))%nat ->
     dict_get d (context_key ws width (List.length ws - width)) = None) /\
    chained d width width ws.
Proof.
  intros Hk Hc Hb Hs.
  destruct (start_state_key _ _ _ _ _ _ Hs) as (Hkey & _).
  destruct (build_key _ _ _ _ Hk Hb Hkey) as (i & Hi & Hcs).
  set (width := Z.to_nat (k self)) in *.
  assert (Hw : (1 <= width)%nat) by (unfold width; lia).
  assert (Hkw : k self = Z.of_nat width) by (unfold width; lia).
  destruct (context_key_seed (split (corpus self)) width i Hw Hi (split_tokens _))
    as (Hinit & Hlen & Htoks & Hctx & _).
  rewrite <- Hcs in Hinit, Hlen, Htoks, Hctx. rewrite <- Hkw in Hinit.
  destruct (generate_loop_run d width Hw
              (fun c succ => build_nonempty _ _ d c succ Hb)
              (fun c succ x => build_successor_token _ _ d c succ x Hk Hb)
              (range (term_count - k self)) width (seed_tokens cs) g0)
    as (more & g' & Hrun & Ht & Hu & Hle & Hstop & Hmore & Hch).
  { lia. }
  { intros j Hj. lia. }
  rewrite length_range in Hle, Hstop.
  exists more, g'. cbv zeta. fold width.
  assert (Hall : Forall is_token (seed_tokens cs ++ more)).
  { apply Forall_app. now split. }
  repeat split; auto.
  - destruct (generate_built self seed_term term_count g Hk Hc) as (d' & Hb' & ->).
    assert (d' = d) by congruence. subst d'.
    unfold generate_words. rewrite Hs, Hinit.
    unfold len. rewrite length_map, Hlen, <- Hkw.
    rewrite <- Hctx, <- Hkw in Hrun. rewrite Hrun.
    now rewrite join_strings.
  - now apply split_concat_sep.
Qed.

Lemma dead_end_true (d : dict) (current_state : value) :
  dict_get d current_state = None \/ dict_get d current_state = Some [] ->
  dead_end d current_state = Ok true.
Proof.
  unfold dead_end, contains, getitem. now intros [-> | ->].
Qed.

(** C2. On a built table (k >= 1), once the seed handling has accepted a
    start state, [generate] returns without raising, and in the words of
    the returned string every word after the seed is an element of the
    table's successor list for the context formed by the k words before it;
    an output shorter than term_count ends in a context that is a dead end.
    In the loop itself, on any table, a context with no entry or with an
    empty successor list ends the loop with the words accumulated so far,
    no draw and no exception. *)
Theorem generated_words_follow_table (self : MarkovText) (seed_term : option value)
    (term_count : Z) (g g0 : Random) (d : dict) (cs : value) :
  1 <= k self -> consistent self ->
  build (corpus self) (k self) = Ok d ->
  start_state d (k self) seed_term g = (Ok cs, g0) ->
  let width := Z.to_nat (k self) in
  (exists ws g',
     generate self seed_term term_count g =
       (Ok (concat_sep " " ws), mkMarkovText (corpus self) (k self) (Some d), g') /\
     split (concat_sep " " ws) = ws /\
     firstn width ws = seed_tokens cs /\
     (forall j, (width <= j < List.length ws)%nat ->
        exists succ,
          dict_get d (context_key ws width (j - width)) = Some succ /\
          In (nth j ws EmptyString) succ) /\
     (len ws < term_count ->
      dead_end d (context_key ws width (List.length ws - width)) = Ok true)) /\
  (forall d1 k1 r rounds current_state generated_words g1,
     dict_get d1 current_state = None \/ dict_get d1 current_state = Some [] ->
     generate_loop d1 k1 (r :: rounds) current_state generated_words g1 =
       (Ok generated_words, g1)).
Proof.
  intros Hk Hc Hb Hs width. split.
  - destruct (generate_run self seed_term term_count g g0 d cs Hk Hc Hb Hs)
      as (more & g' & Hgen & Hsplit & _ & Hlen & _ & _ & Hle & Hstop & Hch).
    cbv zeta in *. fold width in Hlen, Hstop, Hch.
    exists (seed_tokens cs ++ more), g'.
    split; [exact Hgen |]. split; [exact Hsplit |]. split; [| split].
    + rewrite firstn_app, <- Hlen, Nat.sub_diag, firstn_all. simpl.
      now rewrite app_nil_r.
    + exact Hch.
    + intros Hshort. apply dead_end_true. left. apply Hstop.
      unfold len in Hshort. rewrite length_app in Hshort. lia.
  - intros d1 k1 r rounds current_state generated_words g1 H. simpl.
    now rewrite dead_end_true.
Qed.

Lemma generated_words_follow_table_witness :
  exists ws g',
    generate (init "the cat sat on the mat the cat ran" 2)
      (Some (VTuple [VStr "the"; VStr "cat"])) 6 (mkRandom (fun _ => 1%nat) 0) =
      (Ok (concat_sep " " ws),
       mkMarkovText "the cat sat on the mat the cat ran" 2
         (Some [(VTuple [VStr "the"; VStr "cat"], ["sat"; "ran"]);
                (VTuple [VStr "cat"; VStr "sat"], ["on"]);
                (VTuple [VStr "sat"; VStr "on"], ["the"]);
                (VTuple [VStr "on"; VStr "the"], ["mat"]);
                (VTuple [VStr "the"; VStr "mat"], ["the"]);
                (VTuple [VStr "mat"; VStr "the"], ["cat"])]), g') /\
    split (concat_sep " " ws) = ws.
Proof.
  destruct (generated_words_follow_table
              (init "the cat sat on the mat the cat ran" 2)
              (Some (VTuple [VStr "the"; VStr "cat"])) 6
              (mkRandom (fun _ => 1%nat) 0) (mkRandom (fun _ => 1%nat) 0)
              [(VTuple [VStr "the"; VStr "cat"], ["sat"; "ran"]);
               (VTuple [VStr "cat"; VStr "sat"], ["on"]);
               (VTuple [VStr "sat"; VStr "on"], ["the"]);
               (VTuple [VStr "on"; VStr "the"], ["mat"]);
               (VTuple [VStr "the"; VStr "mat"], ["the"]);
               (VTuple [VStr "mat"; VStr "the"], ["cat"])]
              (VTuple [VStr "the"; VStr "cat"]))
    as ((ws & g' & Hgen & Hsplit & _) & _).
  - simpl. lia.
  - exact I.
  - reflexivity.
  - reflexivity.
  - exists ws, g'. split; [exact Hgen | exact Hsplit].
Defined.

(** C3, as stated, fails for a target smaller than the seed: with k = 1,
    seed "a" and term_count 0 the output is the seed, one token, after no
    draw, while min(0, 1 + chain) is at most 0 for every chain length. *)
Lemma generate_longer_than_target :
  exists out g',
    generate (init "a b" 1) (Some (VStr "a")) 0 (mkRandom (fun _ => 0%nat) 0) =
      (Ok out, mkMarkovText "a b" 1 (Some [(VStr "a", ["b"])]), g') /\
    used g' = 0%nat /\
    len (split out) = 1 /\
    forall chain, len (split out) <> Z.min 0 (1 + chain).
Proof.
  exists "a", (mkRandom (fun _ => 0%nat) 0).
  split; [reflexivity |]. split; [reflexivity |]. split; [reflexivity |].
  intros chain. change (len (split "a")) with 1. lia.
Qed.

(** C3 (amended). On a built table (k >= 1) with an accepted start state,
    the number of tokens of the returned string is seed_length + draws,
    where seed_length = k is the number of seed tokens and draws is the
    number of successor draws made, which is at most
    max(0, term_count - seed_length); so it equals
    max(seed_length, min(term_count, seed_length + draws)), which is
    min(term_count, seed_length + draws) whenever term_count >= seed_length
    and seed_length when term_count is smaller. *)
Theorem generated_length (self : MarkovText) (seed_term : option value)
    (term_count : Z) (g g0 : Random) (d : dict) (cs : value) :
  1 <= k self -> consistent self ->
  build (corpus self) (k self) = Ok d ->
  start_state d (k self) seed_term g = (Ok cs, g0) ->
  exists out g',
    generate self seed_term term_count g =
      (Ok out, mkMarkovText (corpus self) (k self) (Some d), g') /\
    let seed_length := len (seed_tokens cs) in
    let draws := Z.of_nat (used g' - used g0) in
    seed_length = k self /\
    (used g0 <= used g')%nat /\
    draws <= Z.max 0 (term_count - seed_length) /\
    len (split out) = seed_length + draws /\
    len (split out) = Z.max seed_length (Z.min term_count (seed_length + draws)) /\
    (seed_length <= term_count ->
     len (split out) = Z.min term_count (seed_length + draws)) /\
    (term_count <= seed_length -> len (split out) = seed_length).
Proof.
  intros Hk Hc Hb Hs.
  destruct (generate_run self seed_term term_count g g0 d cs Hk Hc Hb Hs)
    as (more & g' & Hgen & Hsplit & _ & Hlen & _ & Hu & Hle & _).
  cbv zeta in *.
  exists (concat_sep " " (seed_tokens cs ++ more)), g'.
  split; [exact Hgen |]. rewrite Hsplit.
  unfold len. rewrite length_app, Hlen, Hu.
  repeat split; lia.
Qed.

Lemma generated_length_witness :
  exists out g',
    generate (init "a b a c" 1) (Some (VStr "a")) 3 (mkRandom (fun _ => 0%nat) 0) =
      (Ok out, mkMarkovText "a b a c" 1
                 (Some [(VStr "a", ["b"; "c"]); (VStr "b", ["a"])]), g') /\
    len (split out) = 1 + Z.of_nat (used g' - 0).
Proof.
  destruct (generated_length (init "a b a c" 1) (Some (VStr "a")) 3
              (mkRandom (fun _ => 0%nat) 0) (mkRandom (fun _ => 0%nat) 0)
              [(VStr "a", ["b"; "c"]); (VStr "b", ["a"])] (VStr "a"))
    as (out & g' & Hgen & _ & _ & _ & Hn & _).
  - simpl. lia.
  - exact I.
  - reflexivity.
  - reflexivity.
  - exists out, g'. split; [exact Hgen | exact Hn].
Defined.

(** ** Seeds *)

Lemma start_state_valid (corpus : string) (k : Z) (d : dict) (seed : value)
    (g : Random) :
  1 <= k -> build corpus k = Ok d -> contains d seed = true ->
  start_state d k (Some seed) g = (Ok seed, g).
Proof.
  intros Hk Hb Hin. unfold contains in Hin.
  assert (Hkey : dict_get d seed <> None) by (destruct (dict_get d seed); congruence).
  destruct (build_key _ _ _ _ Hk Hb Hkey) as (i & Hi & ->).
  assert (Hw : (1 <= Z.to_nat k)%nat) by lia.
  destruct (context_key_seed (split corpus) (Z.to_nat k) i Hw Hi (split_tokens _))
    as (_ & _ & _ & _ & Hshape).
  rewrite Z2Nat.id in Hshape by lia.
  unfold start_state. rewrite (well_shaped_passes _ _ Hk Hshape).
  unfold contains. destruct (dict_get d _); [reflexivity | contradiction].
Qed.

(** C4. For a seed that is a key of the built table (k >= 1), when
    term_count is at most the number of seed tokens, [generate] makes no
    random draw and returns the seed tokens, unmodified, joined by single
    spaces. *)
Theorem short_target_returns_seed (self : MarkovText) (seed : value)
    (term_count : Z) (g : Random) (d : dict) :
  1 <= k self -> consistent self ->
  build (corpus self) (k self) = Ok d ->
  contains d seed = true ->
  term_count <= len (seed_tokens seed) ->
  generate self (Some seed) term_count g =
    (Ok (concat_sep " " (seed_tokens seed)),
     mkMarkovText (corpus self) (k self) (Some d), g) /\
  (if k self =? 1 then [seed] else list_of seed) = map VStr (seed_tokens seed) /\
  split (concat_sep " " (seed_tokens seed)) = seed_tokens seed.
Proof.
  intros Hk Hc Hb Hin Htc.
  pose proof (start_state_valid _ _ _ _ g Hk Hb Hin) as Hs.
  destruct (generate_run self (Some seed) term_count g g d seed Hk Hc Hb Hs)
    as (more & g' & Hgen & Hsplit & Hinit & Hlen & Ht & Hu & Hle & _).
  cbv zeta in *. unfold len in Htc. rewrite Hlen in Htc.
  assert (Hm : more = []).
  { destruct more; [reflexivity | simpl in Hle; lia]. }
  subst more. rewrite app_nil_r in *. simpl in Hu.
  assert (Hg : g' = g).
  { destruct g, g'. simpl in *. subst. f_equal. lia. }
  rewrite Hg in Hgen. auto.
Qed.

Lemma short_target_returns_seed_witness :
  generate (init "the cat sat on the mat" 2) (Some (VTuple [VStr "the"; VStr "cat"]))
    1 (mkRandom (fun _ => 0%nat) 0) =
    (Ok "the cat",
     mkMarkovText "the cat sat on the mat" 2
       (Some [(VTuple [VStr "the"; VStr "cat"], ["sat"]);
              (VTuple [VStr "cat"; VStr "sat"], ["on"]);
              (VTuple [VStr "sat"; VStr "on"], ["the"]);
              (VTuple [VStr "on"; VStr "the"], ["mat"])]),
     mkRandom (fun _ => 0%nat) 0).
Proof.
  apply (short_target_returns_seed (init "the cat sat on the mat" 2)
           (VTuple [VStr "the"; VStr "cat"]) 1 (mkRandom (fun _ => 0%nat) 0)
           [(VTuple [VStr "the"; VStr "cat"], ["sat"]);
            (VTuple [VStr "cat"; VStr "sat"], ["on"]);
            (VTuple [VStr "sat"; VStr "on"], ["the"]);
            (VTuple [VStr "on"; VStr "the"], ["mat"])]).
  - simpl. lia.
  - exact I.
  - reflexivity.
  - reflexivity.
  - vm_compute. discriminate.
Defined.

(** C6. For k > 1, [generate] with a bare string as seed raises the
    ValueError that says the seed must be a tuple of k words, whatever the
    corpus and whatever table the instance holds: the shape test comes
    before the membership test, so it does so even when the string is a
    key of the table. *)
Theorem bare_string_seed_rejected (corpus : string) (k : Z) (stored : option dict)
    (s : string) (term_count : Z) (g : Random) :
  1 < k ->
  let self := mkMarkovText corpus k stored in
  let shape_error :=
    ValueError
      (String.append "For k="
         (String.append (str_int k)
            (String.append ", seed_term must be a tuple of "
               (String.append (str_int k) " words")))) in
  generate self (Some (VStr s)) term_count g =
    (Raise shape_error,
     match stored with Some _ => self | None => snd (get_term_dict self) end, g) /\
  forall d, start_state d k (Some (VStr s)) g = (Raise shape_error, g).
Proof.
  intros Hk self shape_error.
  assert (Hs : forall d, start_state d k (Some (VStr s)) g = (Raise shape_error, g)).
  { intros d. unfold start_state.
    replace (1 <? k) with true by (symmetry; apply Z.ltb_lt; lia).
    reflexivity. }
  split; [| exact Hs].
  unfold generate, self. destruct stored as [d |]; simpl.
  - unfold generate_words. now rewrite Hs.
  - unfold get_term_dict. simpl. rewrite build_ok by lia. simpl.
    unfold generate_words. now rewrite Hs.
Qed.

Lemma bare_string_seed_rejected_witness :
  generate (init "the cat sat on the mat the cat ran" 2) (Some (VStr "the")) 15
    (mkRandom (fun _ => 0%nat) 0) =
    (Raise (ValueError "For k=2, seed_term must be a tuple of 2 words"),
     snd (get_term_dict (init "the cat sat on the mat the cat ran" 2)),
     mkRandom (fun _ => 0%nat) 0).
Proof.
  apply (bare_string_seed_rejected "the cat sat on the mat the cat ran" 2 None
           "the" 15 (mkRandom (fun _ => 0%nat) 0)).
  lia.
Defined.

(** C7. For a seed of the right shape for k (a string for k = 1, a tuple
    of k strings for k > 1) that is not a key of the built table,
    [generate] raises the ValueError whose message is
    "Seed term '<seed>' not found in corpus", where <seed> is str(seed):
    the string itself for k = 1. *)
Theorem missing_seed_rejected (self : MarkovText) (seed : value)
    (term_count : Z) (g : Random) (d : dict) :
  1 <= k self -> consistent self ->
  build (corpus self) (k self) = Ok d ->
  well_shaped (k self) seed = true ->
  contains d seed = false ->
  generate self (Some seed) term_count g =
    (Raise (ValueError
              (String.append "Seed term '"
                 (String.append (str seed) "' not found in corpus"))),
     mkMarkovText (corpus self) (k self) (Some d), g) /\
  (forall s, seed = VStr s -> str seed = s).
Proof.
  intros Hk Hc Hb Hshape Hin. split; [| now intros s ->].
  destruct (generate_built self (Some seed) term_count g Hk Hc) as (d' & Hb' & ->).
  assert (d' = d) by congruence. subst d'.
  unfold generate_words, start_state.
  now rewrite (well_shaped_passes _ _ Hk Hshape), Hin.
Qed.

Lemma missing_seed_rejected_witness :
  generate (init "the cat sat on the mat the cat ran" 1) (Some (VStr "zebra")) 15
    (mkRandom (fun _ => 0%nat) 0) =
    (Raise (ValueError "Seed term 'zebra' not found in corpus"),
     mkMarkovText "the cat sat on the mat the cat ran" 1
       (Some [(VStr "the", ["cat"; "mat"; "cat"]); (VStr "cat", ["sat"; "ran"]);
              (VStr "sat", ["on"]); (VStr "on", ["the"]); (VStr "mat", ["the"])]),
     mkRandom (fun _ => 0%nat) 0).
Proof.
  apply (missing_seed_rejected (init "the cat sat on the mat the cat ran" 1)
           (VStr "zebra") 15 (mkRandom (fun _ => 0%nat) 0)
           [(VStr "the", ["cat"; "mat"; "cat"]); (VStr "cat", ["sat"; "ran"]);
            (VStr "sat", ["on"]); (VStr "on", ["the"]); (VStr "mat", ["the"])]).
  - simpl. lia.
  - exact I.
  - reflexivity.
  - reflexivity.
  - reflexivity.
Defined.

(** * Further properties of the code *)

(** ** Frequencies in the table *)

Lemma count_app (x : string) (l1 l2 : list string) :
  count x (l1 ++ l2) = (count x l1 + count x l2)%nat.
Proof. unfold count. now rewrite filter_app, length_app. Qed.

Lemma count_successors_of (tokens : list string) (k : nat) (c : value) (x : string) :
  count x (successors_of tokens k c) = followed_by tokens k c x.
Proof.
  unfold successors_of, followed_by.
  induction (seq 0 (List.length tokens - k)) as [| i windows IH]; [reflexivity |].
  simpl flat_map. rewrite count_app, IH. simpl filter.
  destruct (value_eqb (context_key tokens k i) c); simpl; [| reflexivity].
  unfold count. simpl. now destruct (String.eqb x (nth (i + k) tokens EmptyString)).
Qed.

(** X1. In the table built for k >= 1, the number of times a token x
    stands in the successor list of a context c is the number of places of
    the corpus where c is followed by x: duplicates are kept, so the lists
    carry the frequencies (a context that is no key has no successors). *)
Theorem successor_frequency (self : MarkovText) (c : value) (x : string) :
  1 <= k self ->
  exists d,
    fst (get_term_dict self) = Ok d /\
    count x (match dict_get d c with Some succ => succ | None => [] end) =
    followed_by (split (corpus self)) (Z.to_nat (k self)) c x.
Proof.
  intros Hk. destruct (build_lookup (corpus self) (k self) Hk) as (d & Hb & _ & Hl).
  exists d. split; [now rewrite get_term_dict_fst |].
  rewrite Hl, <- count_successors_of.
  now destruct (successors_of (split (corpus self)) (Z.to_nat (k self)) c).
Qed.

Lemma successor_frequency_witness :
  exists d,
    fst (get_term_dict (init "the cat sat on the mat the cat ran" 1)) = Ok d /\
    count "cat" (match dict_get d (VStr "the") with Some succ => succ | None => [] end)
    = 2%nat.
Proof.
  destruct (successor_frequency (init "the cat sat on the mat the cat ran" 1)
              (VStr "the") "cat") as (d & Hd & Hc).
  - simpl. lia.
  - exists d. split; [exact Hd | exact Hc].
Defined.

(** ** The order of the keys *)

Lemma contains_keys (d : dict) (key : value) :
  contains d key = existsb (fun k' => value_eqb k' key) (keys d).
Proof.
  unfold contains. induction d as [| [k' succ] d IH]; simpl; [reflexivity |].
  destruct (value_eqb k' key); [reflexivity | exact IH].
Qed.

Lemma filter_implied {A : Type} (P Q : A -> bool) (l : list A) :
  (forall y, P y = true -> Q y = true) ->
  filter P (filter Q l) = filter P l.
Proof.
  intros H. induction l as [| y l IH]; simpl; [reflexivity |].
  destruct (Q y) eqn:EQ; simpl.
  - now rewrite IH.
  - destruct (P y) eqn:EP; [| exact IH].
    apply H in EP. congruence.
Qed.

Lemma filter_both {A : Type} (P Q : A -> bool) (l : list A) :
  filter (fun y => P y && Q y) l = filter P (filter Q l).
Proof.
  induction l as [| y l IH]; simpl; [reflexivity |].
  destruct (Q y); simpl.
  - rewrite andb_true_r. destruct (P y); now rewrite IH.
  - now rewrite andb_false_r.
Qed.

(** Appending keys one by one, each only when it is new, lists them in
    order of first occurrence. *)
Lemma fold_new_keys (l acc : list value) :
  fold_left (fun acc x => if existsb (fun y => value_eqb y x) acc
                          then acc else acc ++ [x]) l acc =
  acc ++ filter (fun y => negb (existsb (fun z => value_eqb z y) acc))
           (first_occurrences l).
Proof.
  revert acc. induction l as [| x l IH]; intros acc; simpl.
  - now rewrite app_nil_r.
  - rewrite IH. destruct (existsb (fun y => value_eqb y x) acc) eqn:E; simpl.
    + f_equal. symmetry. apply filter_implied.
      intros y Hy. apply negb_true_iff. apply value_eqb_neq. intros ->.
      rewrite E in Hy. discriminate.
    + rewrite <- app_assoc. simpl. f_equal. f_equal.
      rewrite <- filter_both. apply filter_ext. intros y.
      rewrite existsb_app. simpl. now rewrite orb_false_r, negb_orb.
Qed.

Lemma keys_fold (tokens : list string) (k : nat) (windows : list nat) (d : dict) :
  keys (fold_left (record_window tokens k) windows d) =
  fold_left (fun acc x => if existsb (fun y => value_eqb y x) acc
                          then acc else acc ++ [x])
    (map (context_key tokens k) windows) (keys d).
Proof.
  revert d. induction windows as [| i windows IH]; intros d; simpl; [reflexivity |].
  rewrite IH. unfold record_window at 1. now rewrite keys_append_at, contains_keys.
Qed.

(** X2. For k >= 1 the keys of the built table, in the order in which
    [list(term_dict.keys())] lists them, are the distinct contexts of the
    corpus in order of first occurrence. *)
Theorem keys_in_corpus_order (self : MarkovText) :
  1 <= k self ->
  exists d,
    fst (get_term_dict self) = Ok d /\
    keys d = first_occurrences (contexts (split (corpus self)) (Z.to_nat (k self))).
Proof.
  intros Hk. eexists. split.
  - rewrite get_term_dict_fst. now apply build_ok.
  - rewrite keys_fold, fold_new_keys. simpl.
    unfold contexts. induction (first_occurrences _) as [| y l IH]; simpl;
      [reflexivity | now rewrite IH].
Qed.

Lemma keys_in_corpus_order_witness :
  exists d,
    fst (get_term_dict (init "b a b c a b" 1)) = Ok d /\
    keys d = [VStr "b"; VStr "a"; VStr "c"].
Proof.
  destruct (keys_in_corpus_order (init "b a b c a b" 1)) as (d & Hd & Hk).
  - simpl. lia.
  - exists d. split; [exact Hd | exact Hk].
Defined.

(** ** Widths below 1 *)

Lemma index_ok {A : Type} (l : list A) (i : Z) :
  - len l <= i < len l -> exists x, index l i = Ok x.
Proof.
  intros H. unfold index.
  set (j := if i <? 0 then i + len l else i).
  assert (Hj : 0 <= j < len l).
  { unfold j. destruct (i <? 0) eqn:E; [apply Z.ltb_lt in E | apply Z.ltb_ge in E]; lia. }
  destruct (j <? 0) eqn:E1; [apply Z.ltb_lt in E1; lia |].
  destruct (len l <=? j) eqn:E2; [apply Z.leb_le in E2; lia |].
  simpl. destruct (nth_error l (Z.to_nat j)) as [x |] eqn:E3; [now exists x |].
  apply nth_error_None in E3. unfold len in Hj. lia.
Qed.

Lemma index_raise {A : Type} (l : list A) (i : Z) :
  i < - len l \/ len l <= i ->
  index l i = Raise (IndexError "list index out of range").
Proof.
  intros H. unfold index.
  set (j := if i <? 0 then i + len l else i).
  assert (Hj : j < 0 \/ len l <= j).
  { unfold j. unfold len in *.
    destruct (i <? 0) eqn:E; [apply Z.ltb_lt in E | apply Z.ltb_ge in E]; lia. }
  destruct (j <? 0) eqn:E1; [reflexivity |].
  destruct (len l <=? j) eqn:E2; [reflexivity |].
  apply Z.ltb_ge in E1. apply Z.leb_gt in E2. lia.
Qed.

Lemma build_loop_in_range (tokens : list string) (k : Z) (indices : list Z) (d : dict) :
  k <> 1 ->
  Forall (fun i => - len tokens <= i + k < len tokens) indices ->
  exists d', build_loop tokens k indices d = Ok d'.
Proof.
  intros Hk H. revert d. induction H as [| i indices Hi _ IH]; intros d; simpl.
  - now exists d.
  - unfold state_at. replace (k =? 1) with false by (symmetry; now apply Z.eqb_neq).
    simpl. destruct (index_ok tokens (i + k) Hi) as (x & ->). simpl. apply IH.
Qed.

Lemma range_bounds (n i : Z) : In i (range n) -> 0 <= i < n.
Proof.
  unfold range. intros H. apply in_map_iff in H as (j & <- & Hj).
  apply in_seq in Hj. lia.
Qed.

Lemma range_pos (n : Z) : 0 < n -> exists rest, range n = 0 :: rest.
Proof.
  intros H. unfold range. destruct (Z.to_nat n) as [| m] eqn:E; [lia |].
  simpl. now eexists.
Qed.

(** X3. [get_term_dict] raises exactly when k < -len(tokens): for every
    k >= -len(tokens), negative widths included, it returns a table and
    stores it; for k < -len(tokens) the first [tokens[i + k]] is out of
    range, the call raises IndexError and the instance is left as it was,
    and so does [generate] on an instance whose table is not built. *)
Theorem get_term_dict_raises (self : MarkovText) :
  let tokens := split (corpus self) in
  (- len tokens <= k self ->
   exists d, get_term_dict self =
             (Ok d, mkMarkovText (corpus self) (k self) (Some d))) /\
  (k self < - len tokens ->
   get_term_dict self = (Raise (IndexError "list index out of range"), self) /\
   (term_dict self = None ->
    forall seed_term term_count g,
      generate self seed_term term_count g =
      (Raise (IndexError "list index out of range"), self, g))).
Proof.
  intros tokens. split.
  - intros Hk. destruct (Z_le_gt_dec 1 (k self)) as [H1 | H1].
    + eexists. apply get_term_dict_build. now apply build_ok.
    + destruct (build_loop_in_range tokens (k self) (range (len tokens - k self)) [])
        as (d & Hd).
      * lia.
      * apply Forall_forall. intros i Hi. apply range_bounds in Hi. lia.
      * exists d. now apply get_term_dict_build.
  - intros Hk.
    assert (Hb : build (corpus self) (k self) =
                 Raise (IndexError "list index out of range")).
    { unfold build. fold tokens.
      destruct (range_pos (len tokens - k self)) as (rest & ->).
      { pose proof (Nat2Z.is_nonneg (List.length tokens)). unfold len in *. lia. }
      simpl. unfold state_at.
      replace (k self =? 1) with false.
      - simpl. rewrite index_raise; [reflexivity | now left].
      - symmetry. apply Z.eqb_neq. pose proof (Nat2Z.is_nonneg (List.length tokens)).
        unfold len in Hk. lia. }
    assert (Hg : get_term_dict self =
                 (Raise (IndexError "list index out of range"), self)).
    { unfold get_term_dict. now rewrite Hb. }
    split; [exact Hg |].
    intros Hnone seed_term term_count g. unfold generate. now rewrite Hnone, Hg.
Qed.

Lemma generate_with_table (self : MarkovText) (seed_term : option value)
    (term_count : Z) (g : Random) (d : dict) :
  consistent self ->
  build (corpus self) (k self) = Ok d ->
  generate self seed_term term_count g =
  match generate_words d (k self) seed_term term_count g with
  | (Raise e, g') => (Raise e, mkMarkovText (corpus self) (k self) (Some d), g')
  | (Ok generated_words, g') =>
      (join " " generated_words, mkMarkovText (corpus self) (k self) (Some d), g')
  end.
Proof.
  intros Hc Hb. unfold consistent in Hc. unfold generate.
  destruct self as [c w [d' |]]; simpl in *.
  - assert (d' = d) by congruence. now subst d'.
  - unfold get_term_dict. simpl. now rewrite Hb.
Qed.

Lemma map_nth_seq (l : list string) :
  map (fun i => nth i l EmptyString) (seq 0 (List.length l)) = l.
Proof.
  induction l as [| x l IH]; [reflexivity |].
  simpl. f_equal. rewrite <- seq_shift, map_map. exact IH.
Qed.

Lemma build_ok_zero (corpus : string) :
  build corpus 0 =
  Ok (fold_left (record_window (split corpus) 0) (seq 0 (List.length (split corpus))) []).
Proof.
  unfold build, range, len. rewrite Z.sub_0_r, Nat2Z.id.
  set (tokens := split corpus).
  assert (H : forall windows d,
             Forall (fun i => (i < List.length tokens)%nat) windows ->
             build_loop tokens 0 (map Z.of_nat windows) d =
             Ok (fold_left (record_window tokens 0) windows d)).
  { intros windows d Hw. revert d.
    induction Hw as [| i windows Hi _ IH]; intros d; simpl; [reflexivity |].
    unfold state_at. simpl.
    pose proof (slice_nat tokens i 0) as Hs. rewrite Z.add_0_r in *.
    rewrite Hs by lia.
    rewrite (index_nat tokens i EmptyString) by assumption. simpl.
    rewrite IH.
    replace (record_window tokens 0 d i)
      with (append_at d (VTuple []) (nth i tokens EmptyString)); [reflexivity |].
    unfold record_window, context_key. simpl. now rewrite Nat.add_0_r. }
  apply H. apply Forall_forall. intros i Hi. apply in_seq in Hi. lia.
Qed.

Lemma keys_fold_nil (tokens : list string) (k : nat) (windows : list nat) :
  keys (fold_left (record_window tokens k) windows []) =
  first_occurrences (map (context_key tokens k) windows).
Proof.
  rewrite keys_fold, fold_new_keys. simpl.
  induction (first_occurrences _) as [| y l IH]; simpl; [reflexivity | now rewrite IH].
Qed.

Lemma first_occurrences_const (l : list value) (c : value) :
  (forall x, In x l -> x = c) ->
  first_occurrences l = match l with [] => [] | _ :: _ => [c] end.
Proof.
  induction l as [| x l IH]; intros H; [reflexivity |].
  simpl. rewrite IH by (intros y Hy; apply H; now right).
  rewrite (H x) by now left.
  destruct l; simpl; [reflexivity | now rewrite value_eqb_refl].
Qed.

(** The table for k = 0: one key, the empty tuple, followed by every
    token of the corpus. *)
Lemma build_zero (corpus : string) :
  build corpus 0 =
  Ok (match split corpus with
      | [] => []
      | _ :: _ => [(VTuple [], split corpus)]
      end).
Proof.
  rewrite build_ok_zero. f_equal.
  set (tokens := split corpus).
  set (d := fold_left (record_window tokens 0) (seq 0 (List.length tokens)) []).
  assert (Hget : dict_get d (VTuple []) = extend None tokens).
  { unfold d. rewrite dict_get_fold. simpl dict_get. f_equal.
    transitivity (map (fun i => nth i tokens EmptyString) (seq 0 (List.length tokens)));
      [| apply map_nth_seq].
    induction (seq 0 (List.length tokens)) as [| i l IH]; [reflexivity |].
    cbn [flat_map map]. rewrite IH. unfold context_key. simpl.
    now rewrite Nat.add_0_r. }
  assert (Hkeys : keys d = match tokens with [] => [] | _ :: _ => [VTuple []] end).
  { unfold d. rewrite keys_fold_nil.
    rewrite (first_occurrences_const _ (VTuple [])).
    - now destruct tokens.
    - intros x Hx. apply in_map_iff in Hx as (i & <- & _). reflexivity. }
  destruct tokens as [| t tokens'] eqn:E.
  - now destruct d.
  - destruct d as [| [key succ] [| entry d']]; try discriminate.
    simpl in Hkeys. injection Hkeys as ->. simpl in Hget. now injection Hget as ->.
Qed.

(** X4. With k = 0 on a non-empty corpus the table has the single key
    [()], followed by every token, and [generate] without a seed returns at
    most one word: after the first append [generated_words[-0:]] is the
    whole list, a context that is no key, so the loop stops. The word is a
    token of the corpus, chosen by the second draw; for term_count <= 0 the
    output is the empty string. *)
Theorem zero_width_single_word (self : MarkovText) (term_count : Z) (g : Random) :
  k self = 0 -> consistent self -> split (corpus self) <> [] ->
  let tokens := split (corpus self) in
  let built := mkMarkovText (corpus self) 0 (Some [(VTuple [], tokens)]) in
  fst (get_term_dict self) = Ok [(VTuple [], tokens)] /\
  (term_count <= 0 ->
   generate self None term_count g =
     (Ok EmptyString, built, mkRandom (tape g) (S (used g)))) /\
  (1 <= term_count ->
   exists x, In x tokens /\
     generate self None term_count g =
       (Ok x, built, mkRandom (tape g) (S (S (used g))))).
Proof.
  intros Hk Hc Hne tokens built.
  assert (Hb : build (corpus self) (k self) = Ok [(VTuple [], tokens)]).
  { rewrite Hk, build_zero. unfold tokens.
    destruct (split (corpus self)); [contradiction | reflexivity]. }
  split; [rewrite get_term_dict_fst; exact Hb |].
  rewrite (generate_with_table self None term_count g _ Hc Hb).
  unfold generate_words, start_state. rewrite Hk. simpl keys.
  destruct (choice_in [VTuple []] g) as (cs & Hcs & [<- | []]); [discriminate |].
  rewrite Hcs. simpl list_of. simpl (0 =? 1). cbv iota.
  change (len (@nil value)) with 0. rewrite Z.sub_0_r.
  split.
  - intros Htc. rewrite range_nonpos by assumption. reflexivity.
  - intros Htc. destruct (range_pos term_count) as (rest & ->); [lia |].
    destruct (choice_in tokens (mkRandom (tape g) (S (used g))) Hne)
      as (x & Hx & Hin).
    exists x. split; [exact Hin |].
    assert (Hlen : (len tokens =? 0) = false).
    { apply Z.eqb_neq. unfold len. intros H.
      apply Hne. apply length_zero_iff_nil. fold tokens. lia. }
    simpl generate_loop. rewrite Hlen, Hx. simpl.
    destruct rest; reflexivity.
Qed.

Lemma zero_width_single_word_witness :
  exists x, In x ["to"; "be"; "or"; "not"] /\
    generate (init "to be or not" 0) None 15 (mkRandom (fun n => n) 0) =
      (Ok x, mkMarkovText "to be or not" 0
               (Some [(VTuple [], ["to"; "be"; "or"; "not"])]),
       mkRandom (fun n => n) 2).
Proof.
  destruct (zero_width_single_word (init "to be or not" 0) 15 (mkRandom (fun n => n) 0))
    as (_ & _ & H).
  - reflexivity.
  - exact I.
  - discriminate.
  - apply H. lia.
Defined.

(** ** Windows of a list *)

Lemma window_length {A : Type} (l : list A) (i n : nat) :
  (i + n <= List.length l)%nat -> List.length (window l i n) = n.
Proof. intros H. unfold window. rewrite length_firstn, length_skipn. lia. Qed.

Lemma skipn_cons_nth {A : Type} (l : list A) (i : nat) (dflt : A) :
  (i < List.length l)%nat -> skipn i l = nth i l dflt :: skipn (S i) l.
Proof.
  revert l. induction i as [| i IH]; intros [| x l] H; simpl in *; try lia.
  - reflexivity.
  - apply IH. lia.
Qed.

Lemma window_cons {A : Type} (l : list A) (i n : nat) (dflt : A) :
  (i < List.length l)%nat ->
  window l i (S n) = nth i l dflt :: window l (S i) n.
Proof.
  intros H. unfold window. now rewrite (skipn_cons_nth l i dflt H).
Qed.

Lemma firstn_snoc {A : Type} (l : list A) (n : nat) (dflt : A) :
  (n < List.length l)%nat -> firstn (S n) l = firstn n l ++ [nth n l dflt].
Proof.
  revert l. induction n as [| n IH]; intros [| x l] H; simpl in *; try lia.
  - reflexivity.
  - f_equal. apply IH. lia.
Qed.

Lemma window_snoc {A : Type} (l : list A) (i n : nat) (dflt : A) :
  (i + n < List.length l)%nat ->
  window l i (S n) = window l i n ++ [nth (i + n) l dflt].
Proof.
  intros H. unfold window.
  rewrite (firstn_snoc _ n dflt) by (rewrite length_skipn; lia).
  now rewrite nth_skipn.
Qed.

Lemma map_VStr_inj (l1 l2 : list string) : map VStr l1 = map VStr l2 -> l1 = l2.
Proof.
  revert l2. induction l1 as [| x l1 IH]; intros [| y l2] H; simpl in *;
    try discriminate; [reflexivity |].
  injection H as -> H. f_equal. now apply IH.
Qed.

(** For windows that lie inside their lists, equal context keys are equal
    windows. *)
Lemma context_key_window (a b : list string) (k i j : nat) :
  (1 <= k)%nat -> (i + k <= List.length a)%nat -> (j + k <= List.length b)%nat ->
  (context_key a k i = context_key b k j <-> window a i k = window b j k).
Proof.
  intros Hk Hi Hj. unfold context_key. destruct (k =? 1)%nat eqn:E.
  - apply Nat.eqb_eq in E. subst k.
    rewrite (window_cons a i 0 EmptyString), (window_cons b j 0 EmptyString) by lia.
    unfold window. simpl. split; congruence.
  - unfold window. split.
    + intros [= H]. now apply map_VStr_inj.
    + now intros ->.
Qed.

Lemma build_entry_inv (corpus : string) (k : Z) (d : dict) (c : value)
    (succ : list string) (x : string) :
  1 <= k -> build corpus k = Ok d -> dict_get d c = Some succ -> In x succ ->
  exists i, (i < List.length (split corpus) - Z.to_nat k)%nat /\
            c = context_key (split corpus) (Z.to_nat k) i /\
            x = nth (i + Z.to_nat k) (split corpus) EmptyString.
Proof.
  intros Hk Hb Hget Hin.
  destruct (build_lookup corpus k Hk) as (d' & Hb' & _ & Hl).
  assert (d' = d) by congruence. subst d'. rewrite Hl in Hget.
  apply successors_of_inv.
  destruct (successors_of (split corpus) (Z.to_nat k) c); simpl in Hget;
    [discriminate | now injection Hget as <-].
Qed.

Lemma build_window_key (corpus : string) (k : Z) (d : dict) (i : nat) :
  1 <= k -> build corpus k = Ok d ->
  (i < List.length (split corpus) - Z.to_nat k)%nat ->
  dict_get d (context_key (split corpus) (Z.to_nat k) i) <> None.
Proof.
  intros Hk Hb Hi.
  destruct (build_lookup corpus k Hk) as (d' & Hb' & _ & Hl).
  assert (d' = d) by congruence. subst d'. rewrite Hl.
  pose proof (successors_of_window (split corpus) (Z.to_nat k) i Hi) as Hin.
  destruct (successors_of _ _ _); [destruct Hin | discriminate].
Qed.

(** In a chained word list every run of k+1 words is a run of the
    corpus. *)
Lemma chained_gram (corpus : string) (k : Z) (d : dict) (ws : list string)
    (from a : nat) :
  1 <= k -> build corpus k = Ok d ->
  chained d (Z.to_nat k) from ws ->
  (from <= a + Z.to_nat k)%nat ->
  (a + Z.to_nat k + 1 <= List.length ws)%nat ->
  exists i, (i + Z.to_nat k + 1 <= List.length (split corpus))%nat /\
            window ws a (Z.to_nat k + 1) = window (split corpus) i (Z.to_nat k + 1).
Proof.
  intros Hk Hb Hch Hfrom Ha. set (width := Z.to_nat k) in *.
  destruct (Hch (a + width)%nat) as (succ & Hget & Hin); [lia |].
  replace (a + width - width)%nat with a in Hget by lia.
  destruct (build_entry_inv _ _ _ _ _ _ Hk Hb Hget Hin) as (i & Hi & Hc & Hx).
  fold width in Hi, Hc, Hx.
  exists i. split; [lia |].
  apply context_key_window in Hc; [| lia | lia | lia].
  rewrite !Nat.add_1_r.
  rewrite (window_snoc ws a width EmptyString) by lia.
  rewrite (window_snoc (split corpus) i width EmptyString) by lia.
  now rewrite Hc, Hx.
Qed.

(** ** What a supplied seed does *)

Lemma build_key_shape (corpus : string) (k : Z) (d : dict) (c : value) :
  1 <= k -> build corpus k = Ok d -> contains d c = true ->
  well_shaped k c = true /\
  exists i, (i < List.length (split corpus) - Z.to_nat k)%nat /\
            c = context_key (split corpus) (Z.to_nat k) i /\
            seed_tokens c = window (split corpus) i (Z.to_nat k).
Proof.
  intros Hk Hb Hin. unfold contains in Hin.
  assert (Hkey : dict_get d c <> None) by (destruct (dict_get d c); congruence).
  destruct (build_key _ _ _ _ Hk Hb Hkey) as (i & Hi & Hc).
  assert (Hw : (1 <= Z.to_nat k)%nat) by lia.
  destruct (context_key_seed (split corpus) (Z.to_nat k) i Hw Hi (split_tokens _))
    as (_ & Hlen & _ & Hctx & Hshape).
  rewrite <- Hc in Hlen, Hctx, Hshape. rewrite Z2Nat.id in Hshape by lia.
  split; [exact Hshape |]. exists i. split; [exact Hi |]. split; [exact Hc |].
  rewrite Hlen, Nat.sub_diag in Hctx. rewrite Hc in Hctx at 1.
  symmetry in Hctx. apply context_key_window in Hctx; [| lia | lia | lia].
  rewrite <- Hctx. unfold window. simpl. rewrite <- Hlen. symmetry. apply firstn_all.
Qed.

(** X5. On a built table (k >= 1), [generate] with a supplied seed returns
    a string exactly when the seed is a key of the table, and every key has
    the shape for k; for any other seed it raises ValueError and makes no
    draw. In both cases the instance holds the built table afterwards. For
    k = 1 a tuple is never a key, so a tuple seed gets the "not found"
    message, with the repr of the tuple in it. *)
Theorem supplied_seed_outcomes (self : MarkovText) (seed : value)
    (term_count : Z) (g : Random) (d : dict) :
  1 <= k self -> consistent self ->
  build (corpus self) (k self) = Ok d ->
  let built := mkMarkovText (corpus self) (k self) (Some d) in
  (contains d seed = true ->
   well_shaped (k self) seed = true /\
   exists out g', generate self (Some seed) term_count g = (Ok out, built, g')) /\
  (contains d seed = false ->
   exists msg,
     generate self (Some seed) term_count g = (Raise (ValueError msg), built, g)) /\
  (k self = 1 ->
   forall items,
     generate self (Some (VTuple items)) term_count g =
       (Raise (ValueError
                 (String.append "Seed term '"
                    (String.append (repr (VTuple items)) "' not found in corpus"))),
        built, g)).
Proof.
  intros Hk Hc Hb built. split; [| split].
  - intros Hin. split; [now apply (build_key_shape _ _ _ _ Hk Hb Hin) |].
    pose proof (start_state_valid _ _ _ _ g Hk Hb Hin) as Hs.
    destruct (generate_run self (Some seed) term_count g g d seed Hk Hc Hb Hs)
      as (more & g' & Hgen & _).
    now exists (concat_sep " " (seed_tokens seed ++ more)), g'.
  - intros Hin. rewrite (generate_with_table self _ term_count g d Hc Hb).
    unfold generate_words, start_state. rewrite Hin. simpl.
    destruct ((1 <? k self) && isinstance_str seed); eexists; reflexivity.
  - intros H1 items.
    assert (Hin : contains d (VTuple items) = false).
    { destruct (contains d (VTuple items)) eqn:E; [| reflexivity].
      destruct (build_key_shape _ _ _ _ Hk Hb E) as (Hshape & _).
      rewrite H1 in Hshape. discriminate. }
    rewrite (generate_with_table self _ term_count g d Hc Hb).
    unfold generate_words, start_state. rewrite Hin.
    replace (1 <? k self) with false by now rewrite H1.
    reflexivity.
Qed.

Lemma supplied_seed_outcomes_witness :
  generate (init "the cat sat" 1) (Some (VTuple [VStr "the"; VStr "cat"])) 5
    (mkRandom (fun _ => 0%nat) 0) =
    (Raise (ValueError "Seed term '('the', 'cat')' not found in corpus"),
     mkMarkovText "the cat sat" 1 (Some [(VStr "the", ["cat"]); (VStr "cat", ["sat"])]),
     mkRandom (fun _ => 0%nat) 0).
Proof.
  destruct (supplied_seed_outcomes (init "the cat sat" 1) (VStr "the") 5
              (mkRandom (fun _ => 0%nat) 0)
              [(VStr "the", ["cat"]); (VStr "cat", ["sat"])]) as (_ & _ & H).
  - simpl. lia.
  - exact I.
  - reflexivity.
  - apply (H eq_refl [VStr "the"; VStr "cat"]).
Defined.

(** ** Generation without a seed *)

(** X6. On a built table (k >= 1) of a corpus with more than k tokens,
    [generate] without a seed never raises: one draw selects the key at
    position (draw mod number of keys) in key order, the output starts with
    the words of that key, and the rest uses later draws. *)
Theorem seedless_generate_succeeds (self : MarkovText) (term_count : Z)
    (g : Random) (d : dict) :
  1 <= k self -> consistent self ->
  build (corpus self) (k self) = Ok d ->
  k self < len (split (corpus self)) ->
  exists cs ws g',
    nth_error (keys d) (tape g (used g) mod List.length (keys d)) = Some cs /\
    generate self None term_count g =
      (Ok (concat_sep " " ws), mkMarkovText (corpus self) (k self) (Some d), g') /\
    split (concat_sep " " ws) = ws /\
    firstn (Z.to_nat (k self)) ws = seed_tokens cs /\
    (used g < used g')%nat.
Proof.
  intros Hk Hc Hb Hlen.
  assert (Hne : keys d <> []).
  { assert (Hi : (0 < List.length (split (corpus self)) - Z.to_nat (k self))%nat)
      by (unfold len in Hlen; lia).
    pose proof (build_window_key _ _ _ 0 Hk Hb Hi) as Hkey.
    apply dict_get_keys in Hkey. intros E. rewrite E in Hkey. destruct Hkey. }
  destruct (keys d) as [| key0 rest] eqn:Ekeys; [contradiction |].
  set (cs := nth (tape g (used g) mod List.length (key0 :: rest)) (key0 :: rest) key0).
  assert (Hs : start_state d (k self) None g = (Ok cs, mkRandom (tape g) (S (used g)))).
  { unfold start_state. rewrite Ekeys. reflexivity. }
  destruct (generated_words_follow_table self None term_count g _ d cs Hk Hc Hb Hs)
    as ((ws & g' & Hgen & Hsplit & Hfirst & _) & _).
  destruct (generate_run self None term_count g _ d cs Hk Hc Hb Hs)
    as (more & g'' & Hgen' & _ & _ & _ & _ & Hu & _).
  cbv zeta in Hgen'. rewrite Hgen in Hgen'.
  assert (g'' = g') by congruence. subst g''. simpl in Hu.
  exists cs, ws, g'. repeat split; auto; [| lia].
  apply nth_error_nth'. apply Nat.mod_upper_bound. discriminate.
Qed.

Lemma seedless_generate_succeeds_witness :
  exists cs ws g',
    nth_error [VStr "b"; VStr "a"; VStr "c"] 1 = Some cs /\
    generate (init "b a b c a b" 1) None 3 (mkRandom (fun _ => 4%nat) 0) =
      (Ok (concat_sep " " ws),
       mkMarkovText "b a b c a b" 1
         (Some [(VStr "b", ["a"; "c"]); (VStr "a", ["b"; "b"]); (VStr "c", ["a"])]), g') /\
    firstn 1 ws = seed_tokens cs.
Proof.
  destruct (seedless_generate_succeeds (init "b a b c a b" 1) 3
              (mkRandom (fun _ => 4%nat) 0)
              [(VStr "b", ["a"; "c"]); (VStr "a", ["b"; "b"]); (VStr "c", ["a"])])
    as (cs & ws & g' & Hcs & Hgen & _ & Hfirst & _).
  - simpl. lia.
  - exact I.
  - reflexivity.
  - vm_compute. reflexivity.
  - exists cs, ws, g'. repeat split; assumption.
Defined.

(** ** The output follows the corpus *)

Lemma start_state_window (self : MarkovText) (seed_term : option value)
    (g g0 : Random) (d : dict) (cs : value) :
  1 <= k self ->
  build (corpus self) (k self) = Ok d ->
  start_state d (k self) seed_term g = (Ok cs, g0) ->
  contains d cs = true /\
  exists i, (i < List.length (split (corpus self)) - Z.to_nat (k self))%nat /\
            seed_tokens cs = window (split (corpus self)) i (Z.to_nat (k self)).
Proof.
  intros Hk Hb Hs.
  destruct (start_state_key _ _ _ _ _ _ Hs) as (Hkey & _).
  assert (Hin : contains d cs = true).
  { unfold contains. destruct (dict_get d cs); [reflexivity | contradiction]. }
  split; [exact Hin |].
  destruct (build_key_shape _ _ _ _ Hk Hb Hin) as (_ & i & Hi & _ & Hw).
  now exists i.
Qed.

(** X7. On a built table (k >= 1), the words of the string [generate]
    returns follow the corpus: the first k words are k consecutive tokens
    of the corpus, and every run of k+1 consecutive words of the output is
    a run of k+1 consecutive tokens of the corpus. *)
Theorem output_runs_in_corpus (self : MarkovText) (seed_term : option value)
    (term_count : Z) (g g0 : Random) (d : dict) (cs : value) :
  1 <= k self -> consistent self ->
  build (corpus self) (k self) = Ok d ->
  start_state d (k self) seed_term g = (Ok cs, g0) ->
  let width := Z.to_nat (k self) in
  let tokens := split (corpus self) in
  exists ws g',
    generate self seed_term term_count g =
      (Ok (concat_sep " " ws), mkMarkovText (corpus self) (k self) (Some d), g') /\
    split (concat_sep " " ws) = ws /\
    (exists i, (i + width <= List.length tokens)%nat /\
               window ws 0 width = window tokens i width) /\
    (forall a, (a + width + 1 <= List.length ws)%nat ->
       exists i, (i + width + 1 <= List.length tokens)%nat /\
                 window ws a (width + 1) = window tokens i (width + 1)).
Proof.
  intros Hk Hc Hb Hs width tokens.
  destruct (generate_run self seed_term term_count g g0 d cs Hk Hc Hb Hs)
    as (more & g' & Hgen & Hsplit & _ & Hlen & _ & _ & _ & _ & Hch).
  cbv zeta in *. fold width in Hlen, Hch.
  exists (seed_tokens cs ++ more), g'.
  split; [exact Hgen |]. split; [exact Hsplit |]. split.
  - destruct (start_state_window self seed_term g g0 d cs Hk Hb Hs)
      as (_ & i & Hi & Hw).
    fold width tokens in Hi, Hw. exists i. split; [lia |].
    rewrite <- Hw. unfold window. simpl.
    rewrite firstn_app, <- Hlen, Nat.sub_diag, firstn_all. simpl.
    now rewrite app_nil_r.
  - intros a Ha.
    apply (chained_gram (corpus self) (k self) d _ width a Hk Hb Hch); fold width; lia.
Qed.

Lemma output_runs_in_corpus_witness :
  exists ws g',
    generate (init "the cat sat on the mat" 1) (Some (VStr "on")) 4
      (mkRandom (fun _ => 1%nat) 0) =
      (Ok (concat_sep " " ws),
       mkMarkovText "the cat sat on the mat" 1
         (Some [(VStr "the", ["cat"; "mat"]); (VStr "cat", ["sat"]);
                (VStr "sat", ["on"]); (VStr "on", ["the"])]), g') /\
    forall a, (a + 1 + 1 <= List.length ws)%nat ->
      exists i, (i + 1 + 1 <= 6)%nat /\
                window ws a 2 = window ["the"; "cat"; "sat"; "on"; "the"; "mat"] i 2.
Proof.
  destruct (output_runs_in_corpus (init "the cat sat on the mat" 1) (Some (VStr "on")) 4
              (mkRandom (fun _ => 1%nat) 0) (mkRandom (fun _ => 1%nat) 0)
              [(VStr "the", ["cat"; "mat"]); (VStr "cat", ["sat"]);
               (VStr "sat", ["on"]); (VStr "on", ["the"])] (VStr "on"))
    as (ws & g' & Hgen & _ & _ & Hruns).
  - simpl. lia.
  - exact I.
  - reflexivity.
  - reflexivity.
  - exists ws, g'. split; [exact Hgen | exact Hruns].
Defined.

(** X8. On a built table (k >= 1), generation stops short of term_count
    only at the end of the corpus: when the output has fewer than
    term_count words, its last k words are the last k tokens of the corpus,
    and those form no key. So when the last k tokens of the corpus do form
    a key (they also occur earlier in it), the output has exactly
    max(k, term_count) words. *)
Theorem stops_only_at_corpus_end (self : MarkovText) (seed_term : option value)
    (term_count : Z) (g g0 : Random) (d : dict) (cs : value) :
  1 <= k self -> consistent self ->
  build (corpus self) (k self) = Ok d ->
  start_state d (k self) seed_term g = (Ok cs, g0) ->
  let width := Z.to_nat (k self) in
  let tokens := split (corpus self) in
  exists ws g',
    generate self seed_term term_count g =
      (Ok (concat_sep " " ws), mkMarkovText (corpus self) (k self) (Some d), g') /\
    split (concat_sep " " ws) = ws /\
    (len ws < term_count ->
     window ws (List.length ws - width) width =
       window tokens (List.length tokens - width) width /\
     contains d (context_key tokens width (List.length tokens - width)) = false) /\
    (contains d (context_key tokens width (List.length tokens - width)) = true ->
     len ws = Z.max (k self) term_count).
Proof.
  intros Hk Hc Hb Hs width tokens.
  destruct (generate_run self seed_term term_count g g0 d cs Hk Hc Hb Hs)
    as (more & g' & Hgen & Hsplit & _ & Hlen & _ & _ & Hle & Hstop & Hch).
  cbv zeta in *. fold width in Hlen, Hstop, Hch.
  set (ws := seed_tokens cs ++ more) in *.
  assert (Hws : List.length ws = (width + List.length more)%nat).
  { unfold ws. rewrite length_app. lia. }
  assert (Hw : (1 <= width)%nat) by (unfold width; lia).
  destruct (start_state_window self seed_term g g0 d cs Hk Hb Hs)
    as (Hcs & i0 & Hi0 & Hw0).
  fold width tokens in Hi0, Hw0.
  assert (Hend : (List.length more < Z.to_nat (term_count - k self))%nat ->
                 window ws (List.length ws - width) width =
                   window tokens (List.length tokens - width) width /\
                 contains d (context_key tokens width (List.length tokens - width))
                 = false).
  { intros Hshort. specialize (Hstop Hshort).
    destruct more as [| x more'] eqn:Emore.
    - exfalso. unfold ws in Hstop. rewrite app_nil_r, Hlen, Nat.sub_diag in Hstop.
      assert (Hkey : context_key (seed_tokens cs) width 0 = context_key tokens width i0).
      { apply context_key_window; try lia.
        rewrite Hw0. unfold window at 1. simpl.
        rewrite <- (window_length tokens i0 width) at 1 by lia. apply firstn_all. }
      rewrite Hkey in Hstop.
      now apply (build_window_key _ _ _ i0 Hk Hb Hi0).
    - rewrite <- Emore in *. assert (Hm : (1 <= List.length more)%nat)
        by (rewrite Emore; simpl; lia).
      destruct (chained_gram (corpus self) (k self) d ws width
                  (List.length ws - width - 1) Hk Hb Hch) as (i & Hi & Hg);
        fold width; try lia.
      fold width tokens in Hi, Hg.
      rewrite !Nat.add_1_r in Hg.
      rewrite (window_cons ws _ width EmptyString) in Hg by lia.
      rewrite (window_cons tokens i width EmptyString) in Hg by lia.
      injection Hg as _ Hg.
      replace (S (List.length ws - width - 1)) with (List.length ws - width)%nat
        in Hg by lia.
      assert (Hkey : context_key ws width (List.length ws - width) =
                     context_key tokens width (S i)).
      { apply context_key_window; try lia. exact Hg. }
      rewrite Hkey in Hstop.
      destruct (Nat.eq_dec (S i) (List.length tokens - width)) as [E | E].
      + rewrite <- E. split; [exact Hg |].
        unfold contains. now rewrite Hstop.
      + exfalso. apply (build_window_key _ _ _ (S i) Hk Hb); [fold width tokens; lia |].
        exact Hstop. }
  exists ws, g'. split; [exact Hgen |]. split; [exact Hsplit |]. split.
  - intros Hshort. apply Hend. unfold len in Hshort. lia.
  - intros Hlast.
    destruct (Nat.eq_dec (List.length more) (Z.to_nat (term_count - k self)))
      as [E | E].
    + unfold len. lia.
    + destruct Hend as (_ & Hno); [lia |]. congruence.
Qed.

Lemma stops_only_at_corpus_end_witness :
  exists ws g',
    generate (init "a b a b" 1) (Some (VStr "a")) 7 (mkRandom (fun _ => 0%nat) 0) =
      (Ok (concat_sep " " ws),
       mkMarkovText "a b a b" 1 (Some [(VStr "a", ["b"; "b"]); (VStr "b", ["a"])]),
       g') /\
    len ws = 7.
Proof.
  destruct (stops_only_at_corpus_end (init "a b a b" 1) (Some (VStr "a")) 7
              (mkRandom (fun _ => 0%nat) 0) (mkRandom (fun _ => 0%nat) 0)
              [(VStr "a", ["b"; "b"]); (VStr "b", ["a"])] (VStr "a"))
    as (ws & g' & Hgen & _ & _ & Hfull).
  - simpl. lia.
  - exact I.
  - reflexivity.
  - reflexivity.
  - exists ws, g'. split; [exact Hgen |]. apply Hfull. reflexivity.
Defined.

(** ** Whitespace *)

(** X9. Only the tokens of the corpus matter: joining the tokens of a
    corpus with single spaces gives a corpus with the same tokens, hence,
    for every k, the same result of [get_term_dict] (table or exception). *)
Theorem whitespace_is_irrelevant (corpus : string) (k : Z) (stored : option dict) :
  let normal := concat_sep " " (split corpus) in
  split normal = split corpus /\
  fst (get_term_dict (mkMarkovText normal k stored)) =
  fst (get_term_dict (mkMarkovText corpus k stored)).
Proof.
  intros normal.
  assert (H : split normal = split corpus)
    by (apply split_concat_sep, split_tokens).
  split; [exact H |].
  rewrite !get_term_dict_fst. unfold build. simpl. now rewrite H.
Qed.

Lemma get_term_dict_raises_witness :
  (exists d, get_term_dict (init "a b c" (-2)) =
             (Ok d, mkMarkovText "a b c" (-2) (Some d))) /\
  get_term_dict (init "a b c" (-4)) =
    (Raise (IndexError "list index out of range"), init "a b c" (-4)).
Proof.
  split.
  - apply (get_term_dict_raises (init "a b c" (-2))). vm_compute. discriminate.
  - apply (get_term_dict_raises (init "a b c" (-4))). reflexivity.
Defined.

(** ** Frequency weighting *)

Lemma filter_map_comm {A B : Type} (f : A -> B) (p : B -> bool) (l : list A) :
  filter p (map f l) = map f (filter (fun a => p (f a)) l).
Proof.
  induction l as [| a l IH]; simpl; [reflexivity |].
  destruct (p (f a)); simpl; now rewrite IH.
Qed.

Lemma count_by_index (x : string) (l : list string) :
  List.length (filter (fun r => String.eqb x (nth r l EmptyString))
                 (seq 0 (List.length l))) = count x l.
Proof.
  unfold count.
  transitivity (List.length
                  (filter (String.eqb x)
                     (map (fun i => nth i l EmptyString) (seq 0 (List.length l))))).
  - now rewrite filter_map_comm, length_map.
  - now rewrite map_nth_seq.
Qed.

(** X10. The draw of a successor is weighted by frequency: for a key c of
    the built table (k >= 1) with successor list succ, [random.choice]
    returns [succ[r]] for the draw r = (draw mod len(succ)), and among the
    len(succ) possible values of r the number that select a token x is the
    number of places of the corpus where c is followed by x. *)
Theorem choice_weighted_by_frequency (self : MarkovText) (d : dict) (c : value)
    (succ : list string) (x : string) :
  1 <= k self ->
  build (corpus self) (k self) = Ok d ->
  dict_get d c = Some succ ->
  (forall g,
     let r := (tape g (used g) mod List.length succ)%nat in
     (r < List.length succ)%nat /\
     choice succ g = (Ok (nth r succ EmptyString), mkRandom (tape g) (S (used g)))) /\
  List.length (filter (fun r => String.eqb x (nth r succ EmptyString))
                 (seq 0 (List.length succ))) =
  followed_by (split (corpus self)) (Z.to_nat (k self)) c x.
Proof.
  intros Hk Hb Hget. split.
  - intros g r.
    assert (Hne : succ <> []) by now apply (build_nonempty _ _ _ _ _ Hb Hget).
    assert (Hr : (r < List.length succ)%nat).
    { apply Nat.mod_upper_bound. now destruct succ. }
    split; [exact Hr |].
    destruct succ as [| x0 rest]; [contradiction |].
    unfold choice. f_equal. f_equal. now apply nth_indep.
  - rewrite count_by_index, <- count_successors_of.
    destruct (build_lookup (corpus self) (k self) Hk) as (d' & Hb' & _ & Hl).
    assert (d' = d) by congruence. subst d'. rewrite Hl in Hget.
    destruct (successors_of (split (corpus self)) (Z.to_nat (k self)) c);
      simpl in Hget; [discriminate | now injection Hget as <-].
Qed.

Lemma choice_weighted_by_frequency_witness :
  List.length (filter (fun r => String.eqb "cat" (nth r ["cat"; "mat"; "cat"] EmptyString))
                 (seq 0 3)) =
  followed_by (split "the cat sat on the mat the cat ran") 1 (VStr "the") "cat".
Proof.
  apply (choice_weighted_by_frequency (init "the cat sat on the mat the cat ran" 1)
           [(VStr "the", ["cat"; "mat"; "cat"]); (VStr "cat", ["sat"; "ran"]);
            (VStr "sat", ["on"]); (VStr "on", ["the"]); (VStr "mat", ["the"])]
           (VStr "the") ["cat"; "mat"; "cat"] "cat").
  - simpl. lia.
  - reflexivity.
  - reflexivity.
Defined.
